(** * Vydra front end: a shallow embedding and its specification

    The development follows the layout of the front end:
    - [Utils]       app/utils.ts              ([sanitizeFilename])
    - [AdSession]   app/contexts/AdProvider.tsx ([preloadAd], [showRewardedAd])
    - [Modal]       app/page.tsx              ([UnlockProModal])
    - [Page]        app/page.tsx              ([Home]: [handleFetch],
                                               [_handleDownload], [handleFormatClick])
    - [App]         the page and the modal it renders, driven by UI events.
    - [AdDisplay]   app/components/AdDisplay.tsx ([AdDisplay])

    React state is modelled by explicit state passing: a handler is a
    function from the component state before the event to the state after
    the batched update it causes.  Calls into the platform (console, alert,
    timers, the ad SDK, navigation) are recorded, in order, in an effect
    log carried by the state.  The handlers of the page that encode a
    download link can end with an exception, since [encodeURIComponent]
    throws on an unpaired surrogate: they are written in a small
    exception monad over the page state ([Page.Handler]). *)

From Stdlib Require Import ZArith NArith Ascii List Bool Lia.
From stdpp Require Import gmap strings list pretty.

(* ===================================================================== *)
(** * Part I: the model                                                   *)
(* ===================================================================== *)

(** ** app/utils.ts *)

Module Utils.

(** [sanitizeFilename] measures [length], cuts with [substring] and runs
    regular expressions without the [u] flag: all three see a JavaScript
    string as its sequence of UTF-16 code units, which is what a
    [list N] holds here. *)

(** The character class of the first [replace]: the control characters
    U+0000 to U+001F, and the nine characters less-than, greater-than,
    colon, double quote, slash, backslash, vertical bar, question mark
    and asterisk. *)
Definition is_illegal (c : N) : bool :=
  ((c <=? 0x1F) || (c =? 0x3C) || (c =? 0x3E) || (c =? 0x3A) || (c =? 0x22)
   || (c =? 0x2F) || (c =? 0x5C) || (c =? 0x7C) || (c =? 0x3F) || (c =? 0x2A))%N.

(** The class [\s] of ECMAScript: WhiteSpace and LineTerminator.  It is
    also the set of characters [String.prototype.trim] strips. *)
Definition is_whitespace (c : N) : bool :=
  (((0x09 <=? c) && (c <=? 0x0D)) || (c =? 0x20) || (c =? 0xA0) || (c =? 0x1680)
   || ((0x2000 <=? c) && (c <=? 0x200A)) || (c =? 0x2028) || (c =? 0x2029)
   || (c =? 0x202F) || (c =? 0x205F) || (c =? 0x3000) || (c =? 0xFEFF))%N.

Definition SPACE : N := 0x20%N.

(** Code units of an ASCII literal. *)
Definition units (s : string) : list N :=
  List.map N_of_ascii (String.list_ascii_of_string s).

(** The first [replace] (global, by the empty string): every illegal
    code unit is deleted. *)
Definition remove_illegal (s : list N) : list N :=
  List.filter (fun c => negb (is_illegal c)) s.

(** [s.replace(/\s+/g, ' ')]: every maximal run of whitespace becomes one
    space.  [in_run] tells that the previous code unit belonged to the
    run being replaced. *)
Fixpoint collapse_whitespace (in_run : bool) (s : list N) : list N :=
  match s with
  | [] => []
  | c :: r =>
      if is_whitespace c
      then (if in_run then collapse_whitespace true r
            else SPACE :: collapse_whitespace true r)
      else c :: collapse_whitespace false r
  end.

Fixpoint dropWhile (f : N -> bool) (s : list N) : list N :=
  match s with
  | [] => []
  | c :: r => if f c then dropWhile f r else s
  end.

Definition trimStart (s : list N) : list N := dropWhile is_whitespace s.
Definition trimEnd (s : list N) : list N :=
  reverse (dropWhile is_whitespace (reverse s)).
Definition trim (s : list N) : list N := trimEnd (trimStart s).

(** [s.substring(0, n)] *)
Definition substring0 (n : nat) (s : list N) : list N := firstn n s.

(** [!s] on a string: true exactly on the empty string. *)
Definition falsy (s : list N) : bool :=
  match s with [] => true | _ => false end.

Definition sanitizeFilename (name : list N) : list N :=
  if falsy name then units "untitled"
  else
    let sanitized := remove_illegal name in
    let sanitized := trim (collapse_whitespace false sanitized) in
    let sanitized :=
      if 200 <? List.length sanitized
      then trim (substring0 200 sanitized)
      else sanitized in
    if falsy sanitized then units "download" else sanitized.

(** Vocabulary of the specification. *)

Definition legal (s : list N) : Prop := Forall (fun c => is_illegal c = false) s.

Definition no_whitespace_run (s : list N) : Prop :=
  forall l1 a b l2,
    s = l1 ++ a :: b :: l2 -> is_whitespace a = true -> is_whitespace b = true -> False.

Definition trimmed (s : list N) : Prop :=
  (forall c, head s = Some c -> is_whitespace c = false) /\
  (forall c, last s = Some c -> is_whitespace c = false).

(** A string [t] cut out of [s]: [s = p ++ t ++ q]. *)
Definition piece (t s : list N) : Prop := exists p q, s = p ++ t ++ q.

(** Adjacent whitespace, by recursion on the list. *)
Fixpoint run_free (s : list N) : Prop :=
  match s with
  | a :: (b :: _) as r =>
      ~ (is_whitespace a = true /\ is_whitespace b = true) /\ run_free r
  | _ => True
  end.

(** The code units of a string that are not whitespace, in order. *)
Definition text (s : list N) : list N :=
  List.filter (fun c => negb (is_whitespace c)) s.

(** Every whitespace character of the string is the plain space. *)
Definition spaced (s : list N) : Prop :=
  Forall (fun c => is_whitespace c = true -> c = SPACE) s.

(** A name on which [sanitizeFilename] finds nothing to do. *)
Definition clean (s : list N) : Prop :=
  s <> [] /\ length s <= 200 /\ legal s /\ trimmed s /\
  no_whitespace_run s /\ spaced s.

End Utils.

(** ** app/contexts/AdProvider.tsx *)

Module AdSession.

Definition REWARDED_AD_UNIT_ID : string := "ca-pub-3510699448181207/1234567890".

(** The ad object the platform passes to [onAdLoaded]; only its identity
    matters to the provider. *)
Record RewardedAd := { ad_id : nat }.

(** The callbacks the provider hands to the platform are closures over
    its state setters, [onReward] and [preloadAd].  A callback is kept as
    the sequence of its statements, so that it can be stored in the effect
    log and run whenever the platform invokes it. *)
Inductive Cmd :=
| CConsoleLog (msg : string)
| CConsoleError (msg : string)
| CSetRewardedAd (ad : RewardedAd)
| CSetIsAdReady (b : bool)
| COnReward
| CPreloadAd.

#[global] Instance RewardedAd_eq_dec : EqDecision RewardedAd.
Proof. solve_decision. Defined.

#[global] Instance Cmd_eq_dec : EqDecision Cmd.
Proof. solve_decision. Defined.

(** Calls that leave the component, in the order they are made. *)
Inductive Effect :=
| ConsoleLog (msg : string)
| ConsoleError (msg : string)
| Alert (msg : string)
| OnReward
| RequestRewardedAd (adUnitId : string)
    (onAdLoaded : RewardedAd -> list Cmd) (onAdFailedToLoad : list Cmd)
| Show (ad : RewardedAd) (onUserEarnedReward onAdClosed : list Cmd).

Record State := mkState {
  rewardedAd : option RewardedAd;        (* useState<RewardedAd | null>(null) *)
  isAdReady : bool;                      (* useState(false) *)
  google_ad_platform : bool;             (* window.google_ad_platform is defined *)
  log : list Effect
}.

Definition init (platform : bool) : State :=
  {| rewardedAd := None; isAdReady := false;
     google_ad_platform := platform; log := [] |}.

Definition setRewardedAd (ad : option RewardedAd) (w : State) : State :=
  {| rewardedAd := ad; isAdReady := isAdReady w;
     google_ad_platform := google_ad_platform w; log := log w |}.

Definition setIsAdReady (b : bool) (w : State) : State :=
  {| rewardedAd := rewardedAd w; isAdReady := b;
     google_ad_platform := google_ad_platform w; log := log w |}.

Definition emit (e : Effect) (w : State) : State :=
  {| rewardedAd := rewardedAd w; isAdReady := isAdReady w;
     google_ad_platform := google_ad_platform w; log := log w ++ [e] |}.

Definition onAdLoaded (ad : RewardedAd) : list Cmd :=
  [ CConsoleLog "Rewarded ad loaded successfully.";
    CSetRewardedAd ad;
    CSetIsAdReady true ].

Definition onAdFailedToLoad : list Cmd :=
  [ CConsoleError "Rewarded ad failed to load:";
    CSetIsAdReady false ].

Definition preloadAd (w : State) : State :=
  let w := setIsAdReady false w in
  if google_ad_platform w then
    let w := emit (ConsoleLog "Pre-loading new rewarded ad...") w in
    emit (RequestRewardedAd REWARDED_AD_UNIT_ID onAdLoaded onAdFailedToLoad) w
  else w.

Definition exec (c : Cmd) (w : State) : State :=
  match c with
  | CConsoleLog msg => emit (ConsoleLog msg) w
  | CConsoleError msg => emit (ConsoleError msg) w
  | CSetRewardedAd ad => setRewardedAd (Some ad) w
  | CSetIsAdReady b => setIsAdReady b w
  | COnReward => emit OnReward w
  | CPreloadAd => preloadAd w
  end.

(** The platform invokes a callback: its statements run in order. *)
Definition invoke (cb : list Cmd) (w : State) : State :=
  fold_left (fun w c => exec c w) cb w.

Definition onUserEarnedReward : list Cmd :=
  [ CConsoleLog "User earned reward!"; COnReward; CPreloadAd ].

Definition onAdClosed : list Cmd :=
  [ CConsoleLog "Ad closed by user."; CPreloadAd ].

Definition NOT_READY_NOTICE : string :=
  "Ad is not ready yet. Please try again in a moment.".

Definition showRewardedAd (w : State) : State :=
  match rewardedAd w, isAdReady w with
  | Some ad, true =>
      let w := emit (ConsoleLog "Showing rewarded ad...") w in
      emit (Show ad onUserEarnedReward onAdClosed) w
  | _, _ =>
      let w := emit (ConsoleError "Ad not ready to be shown.") w in
      emit (Alert NOT_READY_NOTICE) w
  end.

(** [onLoad] of the SDK script tag.  Whether the script has defined the
    global is the script's business: [defined] tells. *)
Definition onLoad (defined : bool) (w : State) : State :=
  let w := {| rewardedAd := rewardedAd w; isAdReady := isAdReady w;
              google_ad_platform := google_ad_platform w || defined;
              log := log w |} in
  preloadAd (emit (ConsoleLog "Rewarded Ad SDK loaded.") w).

(** What can happen to a mounted provider.  The platform may invoke a
    callback of any request or show issued so far, at any later time. *)
Inductive step : State -> State -> Prop :=
| step_mount_timer w :
    google_ad_platform w = true -> step w (preloadAd w)
| step_script_loaded w defined :
    step w (onLoad defined w)
| step_show w :
    step w (showRewardedAd w)
| step_ad_loaded w unit onL onF ad :
    RequestRewardedAd unit onL onF ∈ log w -> step w (invoke (onL ad) w)
| step_ad_failed w unit onL onF :
    RequestRewardedAd unit onL onF ∈ log w -> step w (invoke onF w)
| step_earned_reward w ad onE onC :
    Show ad onE onC ∈ log w -> step w (invoke onE w)
| step_ad_closed w ad onE onC :
    Show ad onE onC ∈ log w -> step w (invoke onC w).

Definition reachable (w : State) : Prop := exists platform, rtc step (init platform) w.

(** The callbacks found in the log are the provider's own. *)
Definition own_callbacks (e : Effect) : Prop :=
  match e with
  | RequestRewardedAd _ onL onF => onL = onAdLoaded /\ onF = onAdFailedToLoad
  | Show _ onE onC => onE = onUserEarnedReward /\ onC = onAdClosed
  | _ => True
  end.

Definition handle_invariant (w : State) : Prop :=
  rewardedAd w = None -> isAdReady w = false.

(** A failed preload as the specification words it: afterwards readiness
    is false and no handle is stored. *)
Definition failed_preload_empties (w : State) : Prop :=
  isAdReady (invoke onAdFailedToLoad (preloadAd w)) = false /\
  rewardedAd (invoke onAdFailedToLoad (preloadAd w)) = None.

(** The state of the provider once a first ad has loaded. *)
Definition loaded_once : State :=
  invoke (onAdLoaded {| ad_id := 1 |}) (preloadAd (init true)).

Definition is_request (e : Effect) : bool :=
  match e with RequestRewardedAd _ _ _ => true | _ => false end.

Definition is_show (e : Effect) : bool :=
  match e with Show _ _ _ => true | _ => false end.

(** How many ad requests a log holds. *)
Definition requests (l : list Effect) : nat := length (List.filter is_request l).

(** In a log, every reward comes after a show and every show after a
    request. *)
Definition ordered (l : list Effect) : Prop :=
  forall l1 e l2, l = l1 ++ e :: l2 ->
    (e = OnReward -> exists e', e' ∈ l1 /\ is_show e' = true) /\
    (is_show e = true -> exists e', e' ∈ l1 /\ is_request e' = true).

Definition requested (w : State) : Prop :=
  rewardedAd w <> None -> exists e, e ∈ log w /\ is_request e = true.

(** Nothing has been asked of an absent platform. *)
Definition idle (w : State) : Prop :=
  rewardedAd w = None /\ isAdReady w = false /\
  Forall (fun e => is_request e = false /\ is_show e = false) (log w).

End AdSession.

(** ** app/page.tsx: the unlock modal *)

Module Modal.

(** The three timers an open modal owns, named after the constants that
    hold their ids in the effect. *)
Inductive Timer :=
| InitTimer        (* setTimeout(..., 0):     setCountdown(15) *)
| IntervalTimer    (* setInterval(..., 1000): one countdown step *)
| AdLoadTimer.     (* setTimeout(..., 2000):  setIsAdLoaded(true) *)

Definition delay (t : Timer) : Z :=
  match t with InitTimer => 0 | IntervalTimer => 1000 | AdLoadTimer => 2000 end.

(** The ids the cleanup function of the effect has captured. *)
Record Cleanup := mkCleanup { initTimer : nat; interval : nat; adLoadTimer : nat }.

Record State := mkState {
  countdown : Z;                   (* useState(15) *)
  isAdLoaded : bool;               (* useState(false) *)
  deps_isOpen : bool;              (* [isOpen] as of the last run of the effect *)
  cleanup : option Cleanup;        (* what the last run of the effect returned *)
  timers : gmap nat Timer;         (* the window's table of pending timers *)
  next_timer : nat                 (* ids are handed out in increasing order *)
}.

Definition init : State :=
  {| countdown := 15; isAdLoaded := false; deps_isOpen := false;
     cleanup := None; timers := ∅; next_timer := 1 |}.

Definition setCountdown (n : Z) (m : State) : State :=
  {| countdown := n; isAdLoaded := isAdLoaded m; deps_isOpen := deps_isOpen m;
     cleanup := cleanup m; timers := timers m; next_timer := next_timer m |}.

Definition setIsAdLoaded (b : bool) (m : State) : State :=
  {| countdown := countdown m; isAdLoaded := b; deps_isOpen := deps_isOpen m;
     cleanup := cleanup m; timers := timers m; next_timer := next_timer m |}.

(** [setTimeout] and [setInterval]: a fresh id, entered in the table. *)
Definition setTimer (t : Timer) (m : State) : nat * State :=
  (next_timer m,
   {| countdown := countdown m; isAdLoaded := isAdLoaded m; deps_isOpen := deps_isOpen m;
      cleanup := cleanup m; timers := <[next_timer m := t]> (timers m);
      next_timer := S (next_timer m) |}).

(** [clearTimeout] and [clearInterval]; clearing an id that is not
    pending does nothing. *)
Definition clearTimer (id : nat) (m : State) : State :=
  {| countdown := countdown m; isAdLoaded := isAdLoaded m; deps_isOpen := deps_isOpen m;
     cleanup := cleanup m; timers := delete id (timers m); next_timer := next_timer m |}.

Definition setEffect (isOpen : bool) (c : option Cleanup) (m : State) : State :=
  {| countdown := countdown m; isAdLoaded := isAdLoaded m; deps_isOpen := isOpen;
     cleanup := c; timers := timers m; next_timer := next_timer m |}.

(** The body of the effect. *)
Definition effect (isOpen : bool) (m : State) : State :=
  if isOpen then
    let '(initTimer, m) := setTimer InitTimer m in
    let '(interval, m) := setTimer IntervalTimer m in
    let '(adLoadTimer, m) := setTimer AdLoadTimer m in
    setEffect isOpen (Some (mkCleanup initTimer interval adLoadTimer)) m
  else setEffect isOpen None m.

(** The function the effect returns. *)
Definition run_cleanup (c : Cleanup) (m : State) : State :=
  let m := clearTimer (initTimer c) m in
  let m := clearTimer (interval c) m in
  let m := clearTimer (adLoadTimer c) m in
  setIsAdLoaded false m.

(** After a render with the prop [isOpen]: the effect depends on
    [[isOpen]] alone, so nothing runs while the prop keeps its value; when
    it has changed, the cleanup of the previous run (if it returned one)
    runs first, then the effect. *)
Definition commit (isOpen : bool) (m : State) : State :=
  if bool_decide (deps_isOpen m = isOpen) then m
  else
    let m := match cleanup m with Some c => run_cleanup c m | None => m end in
    effect isOpen m.

(** The window runs the callback of timer [id], if it is still pending.
    A timeout leaves the table when it fires, an interval stays. *)
Definition fire (id : nat) (m : State) : State :=
  match timers m !! id with
  | None => m
  | Some InitTimer => setCountdown 15 (clearTimer id m)
  | Some AdLoadTimer => setIsAdLoaded true (clearTimer id m)
  | Some IntervalTimer =>
      if (countdown m <=? 1)%Z
      then setCountdown 0 (clearTimer id m)
      else setCountdown (countdown m - 1) m
  end.

Definition isUnlockable (m : State) : bool :=
  (countdown m =? 0)%Z && isAdLoaded m.

(** What the render shows of the unlock button. *)
Record View := mkView {
  unlock_disabled : bool;
  unlock_icon : string;
  unlock_label : string
}.

Definition render (isOpen : bool) (m : State) : option View :=
  if negb isOpen then None
  else
    Some {| unlock_disabled := negb (isUnlockable m);
            unlock_icon := if negb (isUnlockable m) then "fa-hourglass-half" else "fa-check";
            unlock_label := if isUnlockable m then "Unlock & Download"
                            else "Please wait... (" +:+ pretty (countdown m) +:+ "s)" |}.

(** What happens to an open modal between its first render and its
    close: its timers fire. *)
Inductive Firing := FireInit | FireInterval | FireAdLoad.

Definition fire_kind (c : Cleanup) (k : Firing) (m : State) : State :=
  match k with
  | FireInit => fire (initTimer c) m
  | FireInterval => fire (interval c) m
  | FireAdLoad => fire (adLoadTimer c) m
  end.

Definition fire_all (c : Cleanup) (ks : list Firing) (m : State) : State :=
  fold_left (fun m k => fire_kind c k m) ks m.

#[global] Instance Firing_eq_dec : EqDecision Firing.
Proof. solve_decision. Defined.

(** How many times the interval was due in a sequence of firings. *)
Definition ticks (ks : list Firing) : Z :=
  Z.of_nat (count_occ Firing_eq_dec ks FireInterval).

(** The modal just opened, from its initial state. *)
Definition opened : State := commit true init.

(** The state of an opened modal, in terms of what has fired so far. *)
Definition counting (c : Cleanup) (m : State) : Prop :=
  (0 <= countdown m)%Z /\
  (timers m !! initTimer c = None) /\
  timers m !! interval c = (if (0 <? countdown m)%Z then Some IntervalTimer else None) /\
  timers m !! adLoadTimer c = (if isAdLoaded m then None else Some AdLoadTimer) /\
  initTimer c <> interval c /\ initTimer c <> adLoadTimer c /\ interval c <> adLoadTimer c.

Definition opened_cleanup : Cleanup := mkCleanup 1 2 3.

End Modal.

(** ** app/types.ts and app/page.tsx: the page *)

Module Page.

(** Text held by the page is only stored, compared with the empty string,
    concatenated and percent-encoded.  A JavaScript string is represented
    by the bytes of its generalised UTF-8 form: the UTF-8 bytes of its
    code points, in which a surrogate pair counts as the one code point it
    stands for and an unpaired surrogate, which UTF-8 proper leaves out,
    is written with the three-byte pattern of its range (0xED, then a
    byte from 0xA0 to 0xBF, then one from 0x80 to 0xBF).  Every
    JavaScript string has one such form ([wtf8] below computes it from
    the UTF-16 code units), and the strings with an unpaired surrogate
    are those whose form has a byte 0xED followed by a byte from 0xA0 to
    0xBF. *)

Record FormatInfo := mkFormatInfo {
  quality : string;
  ext : string;
  size_mb : option Z;      (* number | null; the handlers never read it *)
  is_premium : bool;
  format_id : string
}.

Record AnalyzeResponse := mkAnalyzeResponse {
  title : string;
  thumbnail : option string;
  formats : list FormatInfo;
  original_url : string
}.

(** [a || b] on strings: the empty string is the only falsy one. *)
Definition js_or (a b : string) : string :=
  match a with EmptyString => b | _ => a end.

(** [a || b] where [a] may be [undefined]. *)
Definition js_or_undefined (a : option string) (b : string) : string :=
  match a with Some a => js_or a b | None => b end.

(** *** encodeURIComponent *)

Definition in_range (lo hi c : ascii) : bool :=
  ((N_of_ascii lo <=? N_of_ascii c) && (N_of_ascii c <=? N_of_ascii hi))%N.

(** The characters [encodeURIComponent] leaves alone: letters, digits and
    nine marks (hyphen, underscore, full stop, exclamation mark, tilde,
    asterisk, apostrophe and the two round brackets). *)
Definition unreserved (c : ascii) : bool :=
  in_range "A" "Z" c || in_range "a" "z" c || in_range "0" "9" c
  || (c =? "-")%char || (c =? "_")%char || (c =? ".")%char || (c =? "!")%char
  || (c =? "~")%char || (c =? "*")%char || (c =? "'")%char
  || (c =? "(")%char || (c =? ")")%char.

Definition hex_digit (n : N) : ascii :=
  if (n <? 10)%N then ascii_of_N (48 + n) else ascii_of_N (55 + n).

Definition percent (c : ascii) : string :=
  String "%" (String (hex_digit (N_of_ascii c / 16))
             (String (hex_digit (N_of_ascii c mod 16)) EmptyString)).

(** Every byte but the unreserved characters becomes a percent escape. *)
Fixpoint escape (s : string) : string :=
  match s with
  | EmptyString => EmptyString
  | String c r =>
      (if unreserved c then String c EmptyString else percent c)
        +:+ escape r
  end.

Definition surrogate_lead (c : ascii) : bool := (N_of_ascii c =? 0xED)%N.

Definition surrogate_second (c : ascii) : bool :=
  ((0xA0 <=? N_of_ascii c) && (N_of_ascii c <=? 0xBF))%N.

(** The text has an unpaired surrogate. *)
Fixpoint unpaired_surrogate (s : string) : bool :=
  match s with
  | EmptyString => false
  | String c r =>
      (surrogate_lead c
       && match r with String d _ => surrogate_second d | EmptyString => false end)
      || unpaired_surrogate r
  end.

(** The builtin: it throws a URIError on a string with an unpaired
    surrogate ([None]), and otherwise returns the UTF-8 bytes of the
    string with all but the unreserved characters escaped. *)
Definition encodeURIComponent (s : string) : option string :=
  if unpaired_surrogate s then None else Some (escape s).

(** *** From UTF-16 code units to the bytes that represent them *)

Definition high_surrogate (c : N) : bool := ((0xD800 <=? c) && (c <=? 0xDBFF))%N.
Definition low_surrogate (c : N) : bool := ((0xDC00 <=? c) && (c <=? 0xDFFF))%N.

Definition surrogate (c : N) : bool := ((0xD800 <=? c) && (c <=? 0xDFFF))%N.

(** The code point a surrogate pair stands for. *)
Definition pair_code_point (hi lo : N) : N :=
  (0x10000 + (hi - 0xD800) * 0x400 + (lo - 0xDC00))%N.

(** The bytes of a code point, by the bit patterns of UTF-8. *)
Definition utf8 (cp : N) : list N :=
  (if cp <? 0x80 then [cp]
   else if cp <? 0x800 then [0xC0 + cp / 0x40; 0x80 + cp mod 0x40]
   else if cp <? 0x10000 then
     [0xE0 + cp / 0x1000; 0x80 + (cp / 0x40) mod 0x40; 0x80 + cp mod 0x40]
   else
     [0xF0 + cp / 0x40000; 0x80 + (cp / 0x1000) mod 0x40;
      0x80 + (cp / 0x40) mod 0x40; 0x80 + cp mod 0x40])%N.

Fixpoint wtf8_bytes (s : list N) : list N :=
  match s with
  | [] => []
  | c :: r =>
      match r with
      | d :: r' =>
          if high_surrogate c && low_surrogate d
          then utf8 (pair_code_point c d) ++ wtf8_bytes r'
          else utf8 c ++ wtf8_bytes r
      | [] => utf8 c
      end
  end.

Definition bytes_text (bs : list N) : string :=
  String.string_of_list_ascii (List.map ascii_of_N bs).

Definition wtf8 (s : list N) : string := bytes_text (wtf8_bytes s).

(** A sequence of code units with a surrogate that has no partner. *)
Fixpoint ill_formed (s : list N) : bool :=
  match s with
  | [] => false
  | c :: r =>
      match r with
      | d :: r' =>
          if high_surrogate c && low_surrogate d then ill_formed r'
          else high_surrogate c || low_surrogate c || ill_formed r
      | [] => high_surrogate c || low_surrogate c
      end
  end.

(** *** The component *)

Inductive Effect :=
| ConsoleLog (msg : string)
| Fetch (resource : string) (url : string)   (* POST, JSON body with the field url *)
| Navigate (href : string).                  (* window.location.href = href *)

Record State := mkState {
  url : string;
  loading : bool;
  error : option string;
  results : option AnalyzeResponse;
  isModalOpen : bool;
  selectedFormat : option FormatInfo;
  log : list Effect
}.

Definition init : State :=
  {| url := EmptyString; loading := false; error := None; results := None;
     isModalOpen := false; selectedFormat := None; log := [] |}.

Definition setUrl (u : string) (st : State) : State :=
  {| url := u; loading := loading st; error := error st; results := results st;
     isModalOpen := isModalOpen st; selectedFormat := selectedFormat st; log := log st |}.

Definition setLoading (b : bool) (st : State) : State :=
  {| url := url st; loading := b; error := error st; results := results st;
     isModalOpen := isModalOpen st; selectedFormat := selectedFormat st; log := log st |}.

Definition setError (e : option string) (st : State) : State :=
  {| url := url st; loading := loading st; error := e; results := results st;
     isModalOpen := isModalOpen st; selectedFormat := selectedFormat st; log := log st |}.

Definition setResults (r : option AnalyzeResponse) (st : State) : State :=
  {| url := url st; loading := loading st; error := error st; results := r;
     isModalOpen := isModalOpen st; selectedFormat := selectedFormat st; log := log st |}.

Definition setIsModalOpen (b : bool) (st : State) : State :=
  {| url := url st; loading := loading st; error := error st; results := results st;
     isModalOpen := b; selectedFormat := selectedFormat st; log := log st |}.

Definition setSelectedFormat (f : option FormatInfo) (st : State) : State :=
  {| url := url st; loading := loading st; error := error st; results := results st;
     isModalOpen := isModalOpen st; selectedFormat := f; log := log st |}.

Definition emit (e : Effect) (st : State) : State :=
  {| url := url st; loading := loading st; error := error st; results := results st;
     isModalOpen := isModalOpen st; selectedFormat := selectedFormat st;
     log := log st ++ [e] |}.

(** What a [catch] clause may receive. *)
Inductive Thrown :=
| ThrownError (message : string)     (* an instance of Error *)
| ThrownString (s : string)
| ThrownOther.

(** The body of a response whose status is not a success.  By the
    contract of the backend the detail field of an error object, when
    present, is a string. *)
Inductive ErrorBody :=
| NotJson (message : string)         (* response.json() rejects, with a SyntaxError *)
| ErrorObject (detail : option string).   (* a JSON object, with or without detail *)

(** How the request of [handleFetch] ends. *)
Inductive Outcome :=
| NetworkFailure (message : string)  (* fetch rejects, with a TypeError *)
| HttpSuccess (data : AnalyzeResponse)
| HttpSuccessNotJson (message : string)
| HttpFailure (body : ErrorBody).

(** The error the builtin throws on an unpaired surrogate. *)
Definition URI_ERROR : Thrown := ThrownError "URI malformed".

(** A handler that may throw: from the state before it, how it ends
    (with a value, or with what it threw) and the state it leaves.
    Statements run in order; the first that throws ends the handler. *)
Definition Handler (A : Type) : Type := State -> (Thrown + A) * State.

Definition returns {A : Type} (x : A) : Handler A := fun st => (inr x, st).

Definition throws {A : Type} (err : Thrown) : Handler A := fun st => (inl err, st).

Definition and_then {A B : Type} (m : Handler A) (k : A -> Handler B) : Handler B :=
  fun st =>
    match m st with
    | (inr x, st') => k x st'
    | (inl err, st') => (inl err, st')
    end.

(** A statement that only updates the state. *)
Definition update (f : State -> State) : Handler unit := fun st => (inr tt, f st).

(** The value of an expression that may throw a URIError. *)
Definition evaluate {A : Type} (o : option A) : Handler A :=
  match o with Some x => returns x | None => throws URI_ERROR end.

Declare Scope handler_scope.
Delimit Scope handler_scope with handler.
Notation "m ;;; k" := (and_then m (fun _ => k))
  (at level 100, k at level 200, right associativity) : handler_scope.

(** The state after an event handler: an exception that leaves the
    handler is reported by the browser, and the state is as the
    statements before it have left it. *)
Definition exec (h : Handler unit) (st : State) : State := snd (h st).

(** The handler ends without an exception. *)
Definition completes (h : Handler unit) (st : State) : Prop := fst (h st) = inr tt.

Definition UNKNOWN_ERROR : string := "An unknown error occurred.".
Definition CONNECT_ERROR : string := "Failed to connect to the backend. Is it running?".

Section WithEnvironment.

(** [process.env.NEXT_PUBLIC_API_URL] *)
Variable NEXT_PUBLIC_API_URL : option string.

Definition API_URL : string := js_or_undefined NEXT_PUBLIC_API_URL "http://localhost:8000".

(** [handleFetch] up to its first [await]. *)
Definition handleFetch_request (st : State) : State :=
  let st := setLoading true st in
  let st := setError None st in
  let st := setResults None st in
  emit (Fetch (API_URL +:+ "/api/analyze") (url st)) st.

(** The [try] block from the first [await] on: the value it produces, or
    what it throws. *)
Definition handleFetch_try (o : Outcome) : Thrown + AnalyzeResponse :=
  match o with
  | NetworkFailure message => inl (ThrownError message)
  | HttpSuccess data => inr data
  | HttpSuccessNotJson message => inl (ThrownError message)
  | HttpFailure (NotJson message) => inl (ThrownError message)
  | HttpFailure (ErrorObject detail) =>
      inl (ThrownError (js_or_undefined detail UNKNOWN_ERROR))
  end.

Definition handleFetch_catch (err : Thrown) (st : State) : State :=
  match err with
  | ThrownError message => setError (Some (js_or message CONNECT_ERROR)) st
  | ThrownString s => setError (Some s) st
  | ThrownOther => setError (Some CONNECT_ERROR) st
  end.

(** [handleFetch] once the request has ended. *)
Definition handleFetch_settle (o : Outcome) (st : State) : State :=
  let st := match handleFetch_try o with
            | inr data => setResults (Some data) st
            | inl err => handleFetch_catch err st
            end in
  setLoading false st.

(** One whole analysis request. *)
Definition handleFetch (o : Outcome) (st : State) : State :=
  handleFetch_settle o (handleFetch_request st).

(** The five encodings, in the order the code makes them, and the link
    built from them; [None] when one of the encodings throws. *)
Definition downloadUrl (format : FormatInfo) (r : AnalyzeResponse) : option string :=
  encodedUrl ← encodeURIComponent (original_url r);
  encodedFormatId ← encodeURIComponent (format_id format);
  encodedTitle ← encodeURIComponent (title r);
  encodedExt ← encodeURIComponent (ext format);
  encodedQuality ← encodeURIComponent (quality format);
  Some (API_URL +:+ "/api/download?url=" +:+ encodedUrl
                +:+ "&format_id=" +:+ encodedFormatId
                +:+ "&title=" +:+ encodedTitle
                +:+ "&ext=" +:+ encodedExt
                +:+ "&quality=" +:+ encodedQuality).

Definition _handleDownload (format : FormatInfo) : Handler unit :=
  fun st =>
    match results st with
    | None => returns tt st
    | Some r =>
        (update (emit (ConsoleLog ("Triggering download for: " +:+ format_id format))) ;;;
         and_then (evaluate (downloadUrl format r))
           (fun downloadUrl => update (emit (Navigate downloadUrl))))%handler st
    end.

Definition handleFormatClick (format : FormatInfo) : Handler unit :=
  if is_premium format then
    (update (setSelectedFormat (Some format)) ;;;
     update (setIsModalOpen true))%handler
  else _handleDownload format.

Definition handleUnlockRequest : Handler unit :=
  fun st =>
    match selectedFormat st with
    | Some f =>
        (_handleDownload f ;;;
         update (setIsModalOpen false) ;;;
         update (setSelectedFormat None))%handler st
    | None => returns tt st
    end.

(** What a download adds to the log: nothing without results; else its
    message and, unless an encoding throws, the navigation. *)
Definition download_effects (format : FormatInfo) (st : State) : list Effect :=
  match results st with
  | None => []
  | Some r =>
      ConsoleLog ("Triggering download for: " +:+ format_id format)
      :: match downloadUrl format r with
         | Some href => [Navigate href]
         | None => []
         end
  end.

(** The [onClose] prop the page passes to the modal. *)
Definition onClose (st : State) : State :=
  let st := setIsModalOpen false st in
  setSelectedFormat None st.

End WithEnvironment.

(** The text of the error box: it is rendered when [error] is truthy. *)
Definition displayed_error (st : State) : option string :=
  match error st with
  | Some EmptyString => None
  | Some m => Some m
  | None => None
  end.

(** A network failure as the specification words it: what is shown is
    the fixed connectivity text. *)
Definition shows_connectivity_text (env : option string) (message : string)
    (st : State) : Prop :=
  displayed_error (handleFetch env (NetworkFailure message) st) = Some CONNECT_ERROR.

(** *** Reading a query string back

    The receiving side of the download link: the part after the question
    mark is cut at every ampersand, each piece at its first equals sign,
    and percent escapes are undone. *)

Fixpoint split_on (sep : ascii) (s : string) : list string :=
  match s with
  | EmptyString => [EmptyString]
  | String c r =>
      if (c =? sep)%char then EmptyString :: split_on sep r
      else match split_on sep r with
           | h :: t => String c h :: t
           | [] => [String c EmptyString]
           end
  end.

Fixpoint key_value (s : string) : string * string :=
  match s with
  | EmptyString => (EmptyString, EmptyString)
  | String c r =>
      if (c =? "=")%char then (EmptyString, r)
      else let '(k, v) := key_value r in (String c k, v)
  end.

Definition parse_query (q : string) : list (string * string) :=
  List.map key_value (split_on "&" q).

Definition hex_value (c : ascii) : option N :=
  if in_range "0" "9" c then Some (N_of_ascii c - 48)%N
  else if in_range "A" "F" c then Some (N_of_ascii c - 55)%N
  else if in_range "a" "f" c then Some (N_of_ascii c - 87)%N
  else None.

Fixpoint percent_decode (s : string) : option string :=
  match s with
  | EmptyString => Some EmptyString
  | String c r =>
      if (c =? "%")%char then
        match r with
        | String h (String l r') =>
            match hex_value h, hex_value l, percent_decode r' with
            | Some x, Some y, Some t => Some (String (ascii_of_N (16 * x + y)) t)
            | _, _, _ => None
            end
        | _ => None
        end
      else match percent_decode r with
           | Some t => Some (String c t)
           | None => None
           end
  end.

Fixpoint all_chars (p : ascii -> bool) (s : string) : bool :=
  match s with
  | EmptyString => true
  | String c r => p c && all_chars p r
  end.

Definition not_sep (sep c : ascii) : bool := negb (c =? sep)%char.

(** The part of the download link after the question mark, when no
    encoding throws. *)
Definition download_query (format : FormatInfo) (r : AnalyzeResponse) : string :=
  "url=" +:+ escape (original_url r)
  +:+ "&format_id=" +:+ escape (format_id format)
  +:+ "&title=" +:+ escape (title r)
  +:+ "&ext=" +:+ escape (ext format)
  +:+ "&quality=" +:+ escape (quality format).

(** None of the five fields of a download has an unpaired surrogate. *)
Definition well_formed (format : FormatInfo) (r : AnalyzeResponse) : Prop :=
  unpaired_surrogate (original_url r) = false /\
  unpaired_surrogate (format_id format) = false /\
  unpaired_surrogate (title r) = false /\
  unpaired_surrogate (ext format) = false /\
  unpaired_surrogate (quality format) = false.

(** The characters a percent-encoded field is made of. *)
Definition escaped_char (c : ascii) : bool := unreserved c || (c =? "%")%char.

End Page.

(** ** app/page.tsx: the page together with the modal it renders *)

Module App.

#[global] Instance FormatInfo_eq_dec : EqDecision Page.FormatInfo.
Proof. solve_decision. Defined.

Record State := mkState { page : Page.State; modal : Modal.State }.

Definition init : State := {| page := Page.init; modal := Modal.init |}.

(** What the user, the network and the window's timers can do. *)
Inductive Event :=
| ChangeUrl (u : string)
| SubmitForm
| RequestEnds (o : Page.Outcome)
| ClickFormat (f : Page.FormatInfo)
| ClickCancel
| ClickUnlock
| TimerFires (id : nat).

(** A handler of the page runs; the page renders again, passing
    [isModalOpen] to the modal as its [isOpen] prop, and the effect of the
    modal is committed. *)
Definition on_page (h : Page.State -> Page.State) (a : State) : State :=
  let p := h (page a) in
  {| page := p; modal := Modal.commit (Page.isModalOpen p) (modal a) |}.

Section WithEnvironment.

Variable NEXT_PUBLIC_API_URL : option string.

(** An event reaches its handler only if the element that carries the
    handler is rendered and enabled: the form does not submit while its
    required field is empty or its button is disabled, a format button
    exists per listed format, the buttons of the modal exist while it is
    open, and a disabled button does not click. *)
Definition handle (e : Event) (a : State) : State :=
  match e with
  | ChangeUrl u => on_page (Page.setUrl u) a
  | SubmitForm =>
      if Page.loading (page a) then a
      else match Page.url (page a) with
           | EmptyString => a
           | _ => on_page (Page.handleFetch_request NEXT_PUBLIC_API_URL) a
           end
  | RequestEnds o =>
      if Page.loading (page a)
      then on_page (Page.handleFetch_settle o) a
      else a
  | ClickFormat f =>
      match Page.results (page a) with
      | Some r =>
          if bool_decide (f ∈ Page.formats r)
          then on_page (Page.exec (Page.handleFormatClick NEXT_PUBLIC_API_URL f)) a
          else a
      | None => a
      end
  | ClickCancel =>
      match Modal.render (Page.isModalOpen (page a)) (modal a) with
      | Some _ => on_page Page.onClose a
      | None => a
      end
  | ClickUnlock =>
      match Modal.render (Page.isModalOpen (page a)) (modal a) with
      | Some v =>
          if Modal.unlock_disabled v then a
          else on_page (Page.exec (Page.handleUnlockRequest NEXT_PUBLIC_API_URL)) a
      | None => a
      end
  | TimerFires id => {| page := page a; modal := Modal.fire id (modal a) |}
  end.

Definition run (es : list Event) (a : State) : State :=
  fold_left (fun a e => handle e a) es a.

End WithEnvironment.

(** The timers of the modal belong to its current opening. *)
Definition owned (c : Modal.Cleanup) (m : Modal.State) : Prop :=
  forall id t, Modal.timers m !! id = Some t ->
    id = Modal.initTimer c \/ id = Modal.interval c \/ id = Modal.adLoadTimer c.

Definition invariant (a : State) : Prop :=
  Modal.deps_isOpen (modal a) = Page.isModalOpen (page a) /\
  (forall id t, Modal.timers (modal a) !! id = Some t -> id < Modal.next_timer (modal a)) /\
  (if Page.isModalOpen (page a)
   then Page.selectedFormat (page a) <> None /\
        exists c, Modal.cleanup (modal a) = Some c /\ owned c (modal a)
   else Modal.timers (modal a) = ∅ /\
        Modal.cleanup (modal a) = None /\
        Modal.isAdLoaded (modal a) = false).

(** The two ways out of the modal: the cancel button, and the unlock
    button once it is enabled. *)
Definition closes (e : Event) (a : State) : Prop :=
  e = ClickCancel \/ (e = ClickUnlock /\ Modal.isUnlockable (modal a) = true).

(** What the handlers keep true of the page and of the timers of an open
    modal, beyond [invariant]. *)
Definition consistent (a : State) : Prop :=
  (Page.isModalOpen (page a) = false -> Page.selectedFormat (page a) = None) /\
  (forall f, Page.selectedFormat (page a) = Some f -> Page.is_premium f = true) /\
  (Page.loading (page a) = true ->
     Page.error (page a) = None /\ Page.results (page a) = None) /\
  (Page.error (page a) = None \/ Page.results (page a) = None) /\
  (0 <= Modal.countdown (modal a) <= 15)%Z /\
  (Page.isModalOpen (page a) = true ->
     exists n,
       Modal.cleanup (modal a) = Some (Modal.mkCleanup n (S n) (S (S n))) /\
       (forall t, Modal.timers (modal a) !! n = Some t -> t = Modal.InitTimer) /\
       (forall t, Modal.timers (modal a) !! S n = Some t -> t = Modal.IntervalTimer) /\
       Modal.timers (modal a) !! S (S n)
         = if Modal.isAdLoaded (modal a) then None else Some Modal.AdLoadTimer).

(** The effects a handler has added to the log of the page. *)
Definition added (a a' : State) : list Page.Effect :=
  drop (length (Page.log (page a))) (Page.log (page a')).

(** A page showing one free and one premium format. *)
Definition free_format : Page.FormatInfo :=
  Page.mkFormatInfo "720p" "mp4" (Some 12%Z) false "22".

Definition premium_format : Page.FormatInfo :=
  Page.mkFormatInfo "Premium HD (1440p)" "mp4" None true "400+140".

Definition sample_response : Page.AnalyzeResponse :=
  Page.mkAnalyzeResponse "My clip & more" None [free_format; premium_format]
    "https://example.com/watch?v=abc".

(** A result whose title was cut in the middle of a surrogate pair: it
    ends with a high surrogate that has lost its partner. *)
Definition truncated_response : Page.AnalyzeResponse :=
  Page.mkAnalyzeResponse
    (Page.wtf8 [0x63; 0x6C; 0x69; 0x70; 0x20; 0xD83D]%N) None
    [free_format; premium_format] "https://example.com/watch?v=abc".

Definition truncated_events : list Event :=
  [ ChangeUrl "https://example.com/watch?v=abc"; SubmitForm;
    RequestEnds (Page.HttpSuccess truncated_response); ClickFormat premium_format ].

Definition sample_events : list Event :=
  [ ChangeUrl "https://example.com/watch?v=abc"; SubmitForm;
    RequestEnds (Page.HttpSuccess sample_response); ClickFormat premium_format ].

(** Events that take the modal opened by [sample_events] to the point
    where it can be unlocked: the countdown is initialised, the ad-load
    delay fires, the interval ticks fifteen times. *)
Definition waiting_events : list Event :=
  TimerFires 1 :: TimerFires 3 :: repeat (TimerFires 2) 15.

End App.

(** ** app/components/AdDisplay.tsx *)

Module AdDisplay.

(** What the component pushes on the queue of the ad network: an empty
    object. *)
Inductive Command := EmptyCommand.

Inductive Effect :=
| ConsoleError (msg : string).

Record State := mkState {
  deps_slot : option string;            (* [slot] as of the last run of the effect *)
  adsbygoogle : option (list Command);  (* window.adsbygoogle, possibly undefined *)
  log : list Effect
}.

(** A component about to mount. *)
Definition init (queue : option (list Command)) : State :=
  {| deps_slot := None; adsbygoogle := queue; log := [] |}.

(** The body of the effect.  The queue is an array, or the object the ad
    network has put in its place, whose [push] may throw: [throws] tells
    whether this call does.  An empty array is truthy. *)
Definition effect (throws : bool) (w : State) : State :=
  match adsbygoogle w with
  | Some q =>
      if throws
      then {| deps_slot := deps_slot w; adsbygoogle := adsbygoogle w;
              log := log w ++ [ConsoleError "Error pushing AdSense ad:"] |}
      else {| deps_slot := deps_slot w; adsbygoogle := Some (q ++ [EmptyCommand]);
              log := log w |}
  | None => w
  end.

(** After a render with the prop [slot]: the effect depends on [[slot]]
    alone and runs on mount and whenever the prop has changed. *)
Definition commit (slot : string) (throws : bool) (w : State) : State :=
  if bool_decide (deps_slot w = Some slot) then w
  else effect throws
         {| deps_slot := Some slot; adsbygoogle := adsbygoogle w; log := log w |}.

(** A sequence of renders, each with its slot and the fate of its push. *)
Definition renders (rs : list (string * bool)) (w : State) : State :=
  fold_left (fun w r => commit (fst r) (snd r) w) rs w.

Definition pushed (w : State) : nat :=
  match adsbygoogle w with Some q => length q | None => 0 end.

End AdDisplay.

(* ===================================================================== *)
(** * Part II: properties                                                 *)
(* ===================================================================== *)

Section UtilsFacts.
Import Utils.

Example sanitize_ex1 :
  sanitizeFilename (units "  a<b>:  c?  ") = units "ab c".
Proof. reflexivity. Qed.

Example sanitize_ex2 : sanitizeFilename (units "<>:?*") = units "download".
Proof. reflexivity. Qed.

Example sanitize_ex3 : sanitizeFilename (units "   ") = units "download".
Proof. reflexivity. Qed.

Lemma piece_refl s : piece s s.
Proof. exists [], []. by rewrite app_nil_r. Qed.

Lemma piece_trans t u s : piece t u -> piece u s -> piece t s.
Proof.
  intros (p1 & q1 & ->) (p2 & q2 & ->).
  exists (p2 ++ p1), (q1 ++ q2). by rewrite <- !app_assoc.
Qed.

Lemma piece_length t s : piece t s -> length t <= length s.
Proof. intros (p & q & ->). rewrite !length_app. lia. Qed.

Lemma piece_legal t s : piece t s -> legal s -> legal t.
Proof.
  intros (p & q & ->) H. unfold legal in *.
  apply Forall_app in H as [_ H]. by apply Forall_app in H as [H _].
Qed.

Lemma piece_no_run t s : piece t s -> no_whitespace_run s -> no_whitespace_run t.
Proof.
  intros (p & q & ->) H l1 a b l2 -> Ha Hb.
  apply (H (p ++ l1) a b (l2 ++ q)); [|done..].
  by rewrite <- !app_assoc.
Qed.

Lemma dropWhile_split f s :
  exists p, s = p ++ dropWhile f s /\ Forall (fun c => f c = true) p.
Proof.
  induction s as [|c r (p & Hp & Hall)]; simpl.
  - by exists [].
  - destruct (f c) eqn:E.
    + exists (c :: p). split; [by rewrite <- app_comm_cons, <- Hp | by constructor].
    + by exists [].
Qed.

Lemma dropWhile_head f s c : head (dropWhile f s) = Some c -> f c = false.
Proof.
  induction s as [|a r IH]; simpl; [done|].
  destruct (f a) eqn:E; [done|]. simpl. congruence.
Qed.

Lemma trimStart_piece s : piece (trimStart s) s.
Proof.
  destruct (dropWhile_split is_whitespace s) as (p & Hp & _).
  exists p, []. by rewrite app_nil_r.
Qed.

Lemma trimEnd_split s :
  exists q, s = trimEnd s ++ q /\ Forall (fun c => is_whitespace c = true) q.
Proof.
  destruct (dropWhile_split is_whitespace (reverse s)) as (p & Hp & Hall).
  exists (reverse p). split; [|by apply Forall_reverse].
  unfold trimEnd. rewrite <- reverse_app, <- Hp. by rewrite reverse_involutive.
Qed.

Lemma trimEnd_piece s : piece (trimEnd s) s.
Proof. destruct (trimEnd_split s) as (q & Hq & _). by exists [], q. Qed.

Lemma trim_piece s : piece (trim s) s.
Proof. eapply piece_trans; [apply trimEnd_piece | apply trimStart_piece]. Qed.

Lemma trim_trimmed s : trimmed (trim s).
Proof.
  split; intros c Hc; unfold trim in *.
  - destruct (trimEnd_split (trimStart s)) as (q & Hq & _).
    apply (dropWhile_head is_whitespace s). fold (trimStart s).
    rewrite Hq, head_app, Hc. done.
  - unfold trimEnd in Hc. rewrite last_reverse in Hc.
    by apply dropWhile_head in Hc.
Qed.

Lemma substring0_piece n s : piece (substring0 n s) s.
Proof. exists [], (drop n s). unfold substring0. simpl. by rewrite take_drop. Qed.

Lemma remove_illegal_legal s : legal (remove_illegal s).
Proof.
  apply Forall_forall. intros c Hc. apply list_elem_of_In in Hc.
  apply filter_In in Hc as [_ Hc]. by apply negb_true_iff in Hc.
Qed.

Lemma remove_illegal_all s :
  Forall (fun c => is_illegal c = true) s -> remove_illegal s = [].
Proof. induction 1 as [|c r Hc _ IH]; simpl; [done|]. by rewrite Hc. Qed.

Lemma collapse_legal b s : legal s -> legal (collapse_whitespace b s).
Proof.
  intros H. revert b. induction H as [|c r Hc _ IH]; intros b; simpl; [constructor|].
  destruct (is_whitespace c), b; try constructor; auto; apply IH.
Qed.

Lemma run_free_no_run s : run_free s -> no_whitespace_run s.
Proof.
  intros H l1. revert s H. induction l1 as [|x l1 IH]; intros s H a b l2 -> Ha Hb.
  - simpl in H. tauto.
  - simpl in H. destruct (l1 ++ a :: b :: l2) as [|y t] eqn:E.
    + by destruct l1.
    + eapply (IH (y :: t)); [tauto | done..].
Qed.

Lemma collapse_run_free b s :
  run_free (collapse_whitespace b s) /\
  (b = true -> forall c, head (collapse_whitespace b s) = Some c -> is_whitespace c = false).
Proof.
  revert b. induction s as [|c r IH]; intros b; simpl.
  - split; [done | intros _ ? [=]].
  - destruct (is_whitespace c) eqn:E.
    + destruct (IH true) as [H1 H2]. destruct b.
      * split; [done | intros _; by apply H2].
      * split; [|done]. simpl.
        destruct (collapse_whitespace true r) as [|y t] eqn:E'; [done|].
        split; [|done]. intros [_ Hy]. rewrite (H2 eq_refl y) in Hy; done.
    + destruct (IH false) as [H1 _].
      split; [| intros _ c' [= <-]; done]. simpl.
      destruct (collapse_whitespace false r) as [|y t] eqn:E'; [done|].
      split; [|done]. intros [Hc _]. congruence.
Qed.

(** C10. For every input string, [sanitizeFilename] returns a non-empty
    string of at most 200 code units, free of the illegal characters
    (the nine punctuation characters and the controls U+0000 to U+001F),
    with no whitespace at either end and no two adjacent whitespace
    characters; the empty input gives the text untitled, and a non-empty
    input made of illegal characters only gives the text download. *)
Theorem sanitizeFilename_safe (name : list N) :
  sanitizeFilename name <> [] /\
  length (sanitizeFilename name) <= 200 /\
  legal (sanitizeFilename name) /\
  trimmed (sanitizeFilename name) /\
  no_whitespace_run (sanitizeFilename name) /\
  (name = [] -> sanitizeFilename name = units "untitled") /\
  (name <> [] -> Forall (fun c => is_illegal c = true) name ->
   sanitizeFilename name = units "download").
Proof.
  assert (Hconst : forall w, w = units "untitled" \/ w = units "download" ->
            w <> [] /\ length w <= 200 /\ legal w /\ trimmed w /\ no_whitespace_run w).
  { intros w [-> | ->]; (split; [done|]); (split; [vm_compute; lia|]);
      (split; [by repeat constructor|]);
      (split; [split; intros c [= <-]; reflexivity|]);
      apply run_free_no_run; vm_compute; intuition congruence. }
  unfold sanitizeFilename. cbv zeta.
  destruct name as [|c0 name0].
  { change (falsy []) with true. cbv iota.
    destruct (Hconst (units "untitled")) as (?&?&?&?&?); [by left|].
    repeat split; try done; by apply H2. }
  change (falsy (c0 :: name0)) with false. cbv iota.
  set (name := c0 :: name0).
  set (s1 := trim (collapse_whitespace false (remove_illegal name))).
  assert (Hs1 : legal s1 /\ no_whitespace_run s1 /\ trimmed s1).
  { split; [|split].
    - eapply piece_legal; [apply trim_piece|].
      apply collapse_legal, remove_illegal_legal.
    - eapply piece_no_run; [apply trim_piece|].
      apply run_free_no_run, collapse_run_free.
    - apply trim_trimmed. }
  destruct Hs1 as (Hl1 & Hr1 & Ht1).
  set (s2 := if 200 <? length s1 then trim (substring0 200 s1) else s1).
  assert (Hs2 : legal s2 /\ no_whitespace_run s2 /\ trimmed s2 /\ length s2 <= 200).
  { unfold s2. destruct (200 <? length s1) eqn:E.
    - assert (Hp : piece (trim (substring0 200 s1)) s1)
        by (eapply piece_trans; [apply trim_piece | apply substring0_piece]).
      split; [by eapply piece_legal|]. split; [by eapply piece_no_run|].
      split; [apply trim_trimmed|].
      etrans; [apply piece_length, trim_piece|].
      unfold substring0. rewrite length_take. lia.
    - apply Nat.ltb_ge in E. done. }
  destruct Hs2 as (Hl2 & Hr2 & Ht2 & Hlen2).
  assert (Hall : Forall (fun c => is_illegal c = true) name -> s2 = []).
  { intros H. unfold s2, s1. rewrite (remove_illegal_all _ H). reflexivity. }
  clearbody s2. clear s1 Hl1 Hr1 Ht1.
  destruct s2 as [|d s2'].
  - change (falsy []) with true. cbv iota.
    destruct (Hconst (units "download")) as (?&?&?&?&?); [by right|].
    repeat split; try done; by apply H2.
  - change (falsy (d :: s2')) with false. cbv iota.
    repeat split; try done; try apply Ht2.
    intros _ H. by apply Hall in H.
Qed.

(** An input the last clause of [sanitizeFilename_safe] applies to. *)
Lemma sanitizeFilename_safe_witness :
  sanitizeFilename (units "<?>") = units "download".
Proof.
  apply (sanitizeFilename_safe (units "<?>")).
  - discriminate.
  - repeat constructor.
Defined.

(** *** What [sanitizeFilename] keeps *)

Lemma piece_spaced t s : piece t s -> spaced s -> spaced t.
Proof.
  intros (p & q & ->) H. unfold spaced in *.
  apply Forall_app in H as [_ H]. by apply Forall_app in H as [H _].
Qed.

Lemma collapse_spaced b s : spaced (collapse_whitespace b s).
Proof.
  revert b. induction s as [|c r IH]; intros b; simpl; [constructor|].
  destruct (is_whitespace c) eqn:E.
  - destruct b; [apply IH|]. constructor; [done | apply IH].
  - constructor; [congruence | apply IH].
Qed.

Lemma no_run_tail c r : no_whitespace_run (c :: r) -> no_whitespace_run r.
Proof. apply piece_no_run. by exists [c], []; rewrite app_nil_r. Qed.

Lemma remove_illegal_id s : legal s -> remove_illegal s = s.
Proof.
  induction 1 as [|c r Hc _ IH]; [done|]. simpl. by rewrite Hc, IH.
Qed.

Lemma collapse_id b s :
  no_whitespace_run s -> spaced s ->
  (b = true -> forall c, head s = Some c -> is_whitespace c = false) ->
  collapse_whitespace b s = s.
Proof.
  revert b. induction s as [|c r IH]; intros b Hrun Hsp Hb; [done|]. simpl.
  apply Forall_cons in Hsp as [Hc Hsp]. pose proof (no_run_tail _ _ Hrun) as Hrun'.
  destruct (is_whitespace c) eqn:E.
  - destruct b; [by rewrite (Hb eq_refl c) in E|].
    assert (c = SPACE) as -> by auto. f_equal. apply IH; [done..|].
    intros _ d Hd. destruct r as [|d' r']; [done|]. injection Hd as ->.
    destruct (is_whitespace d) eqn:Ed; [|done].
    destruct (Hrun [] SPACE d r' eq_refl E Ed).
  - f_equal. apply IH; [done..|]. discriminate.
Qed.

Lemma dropWhile_id f s :
  (forall c, head s = Some c -> f c = false) -> dropWhile f s = s.
Proof. destruct s as [|c r]; [done|]. intros H. simpl. by rewrite (H c). Qed.

Lemma trim_id s : trimmed s -> trim s = s.
Proof.
  intros [Hh Hl]. unfold trim, trimStart, trimEnd.
  rewrite (dropWhile_id _ s Hh), dropWhile_id; [apply reverse_involutive|].
  by rewrite head_reverse.
Qed.

Lemma sanitize_result_clean name : clean (sanitizeFilename name).
Proof.
  assert (Hconst : forall w, w = units "untitled" \/ w = units "download" -> clean w).
  { intros w [-> | ->]; (split; [done|]); (split; [vm_compute; lia|]);
      (split; [by repeat constructor|]);
      (split; [split; intros c [= <-]; reflexivity|]);
      (split; [apply run_free_no_run; vm_compute; intuition congruence|]);
      repeat constructor; vm_compute; congruence. }
  unfold sanitizeFilename. cbv zeta.
  destruct name as [|c0 name0].
  { apply Hconst. by left. }
  change (falsy (c0 :: name0)) with false. cbv iota.
  set (s0 := collapse_whitespace false (remove_illegal (c0 :: name0))).
  assert (H0 : legal s0 /\ no_whitespace_run s0 /\ spaced s0).
  { split; [apply collapse_legal, remove_illegal_legal|].
    split; [apply run_free_no_run, collapse_run_free | apply collapse_spaced]. }
  destruct H0 as (Hl0 & Hr0 & Hs0). clearbody s0.
  set (s2 := if 200 <? length (trim s0) then trim (substring0 200 (trim s0)) else trim s0).
  assert (Hp : piece s2 s0 /\ trimmed s2 /\ length s2 <= 200).
  { unfold s2. destruct (200 <? length (trim s0)) eqn:E.
    - split; [|split; [apply trim_trimmed|]].
      + eapply piece_trans; [apply trim_piece|].
        eapply piece_trans; [apply substring0_piece | apply trim_piece].
      + etrans; [apply piece_length, trim_piece|].
        unfold substring0. rewrite length_take. lia.
    - apply Nat.ltb_ge in E. split; [apply trim_piece|]. split; [apply trim_trimmed | done]. }
  destruct Hp as (Hp & Ht2 & Hlen2). clearbody s2.
  destruct s2 as [|d s2'].
  - apply Hconst. by right.
  - change (falsy (d :: s2')) with false. cbv iota.
    split; [done|]. split; [done|]. split; [by eapply piece_legal|].
    split; [done|]. split; [by eapply piece_no_run | by eapply piece_spaced].
Qed.

(** X1. A clean name (non-empty, at most 200 code units, no illegal
    character, no whitespace at either end, no two adjacent whitespace
    characters and no whitespace other than the plain space) is returned
    unchanged. *)
Theorem sanitizeFilename_clean (name : list N) :
  clean name -> sanitizeFilename name = name.
Proof.
  intros (Hne & Hlen & Hleg & Htrim & Hrun & Hsp).
  unfold sanitizeFilename. cbv zeta.
  destruct name as [|c r]; [done|].
  change (falsy (c :: r)) with false. cbv iota.
  rewrite (remove_illegal_id _ Hleg), collapse_id, (trim_id _ Htrim) by done.
  apply Nat.ltb_ge in Hlen. rewrite Hlen. reflexivity.
Qed.

Lemma sanitizeFilename_clean_witness :
  sanitizeFilename (units "My clip (1080p).mp4") = units "My clip (1080p).mp4".
Proof.
  apply (sanitizeFilename_clean (units "My clip (1080p).mp4")).
  split; [discriminate|]. split; [vm_compute; lia|].
  split; [repeat constructor|].
  split; [split; intros c [= <-]; reflexivity|].
  split; [apply run_free_no_run; vm_compute; intuition congruence|].
  repeat constructor; vm_compute; congruence.
Defined.

(** X2. [sanitizeFilename] is idempotent: sanitizing a sanitized name
    changes nothing. *)
Theorem sanitizeFilename_idempotent (name : list N) :
  sanitizeFilename (sanitizeFilename name) = sanitizeFilename name.
Proof.
  pose proof (sanitize_result_clean name) as (Hne & Hlen & Hleg & Htrim & Hrun & Hsp).
  unfold sanitizeFilename at 1. cbv zeta.
  destruct (sanitizeFilename name) as [|c r]; [done|].
  change (falsy (c :: r)) with false. cbv iota.
  rewrite (remove_illegal_id _ Hleg), collapse_id, (trim_id _ Htrim) by done.
  apply Nat.ltb_ge in Hlen. rewrite Hlen. reflexivity.
Qed.

Lemma text_app s t : text (s ++ t) = text s ++ text t.
Proof. apply List.filter_app. Qed.

Lemma text_reverse s : text (reverse s) = reverse (text s).
Proof.
  induction s as [|c r IH]; [done|].
  rewrite reverse_cons, text_app, IH. simpl.
  destruct (is_whitespace c); simpl; [by rewrite app_nil_r | by rewrite reverse_cons].
Qed.

Lemma text_collapse b s : text (collapse_whitespace b s) = text s.
Proof.
  revert b. induction s as [|c r IH]; intros b; [done|]. simpl.
  destruct (is_whitespace c) eqn:E; simpl.
  - destruct b; [apply IH|]. simpl. apply IH.
  - by rewrite E, IH.
Qed.

Lemma text_dropWhile s : text (dropWhile is_whitespace s) = text s.
Proof.
  induction s as [|c r IH]; [done|]. simpl.
  destruct (is_whitespace c) eqn:E; simpl; [done | by rewrite E].
Qed.

Lemma text_trim s : text (trim s) = text s.
Proof.
  unfold trim, trimEnd, trimStart.
  by rewrite text_reverse, text_dropWhile, text_reverse, reverse_involutive,
    text_dropWhile.
Qed.

Lemma text_nil_trim s : text s = [] -> trim s = [].
Proof.
  intros H. unfold trim, trimStart.
  assert (dropWhile is_whitespace s = []) as ->; [|done].
  induction s as [|c r IH]; [done|]. simpl in *.
  destruct (is_whitespace c); [auto | done].
Qed.

Lemma text_head s c :
  head s = Some c -> is_whitespace c = false -> head (text s) = Some c.
Proof. destruct s as [|d r]; [done|]. intros [= ->] H. simpl. by rewrite H. Qed.

Lemma trim_head s c :
  head s = Some c -> is_whitespace c = false -> head (trim s) = Some c.
Proof.
  intros Hh Hc. destruct s as [|d r]; [done|]. injection Hh as ->.
  unfold trim, trimStart. simpl. rewrite Hc.
  destruct (trimEnd_split (c :: r)) as (q & Hq & Hall).
  destruct (trimEnd (c :: r)) as [|d r'] eqn:E.
  - simpl in Hq. subst q. apply Forall_cons in Hall as [Hc' _]. congruence.
  - by injection Hq as <- _.
Qed.

Lemma collapse_length b s : length (collapse_whitespace b s) <= length s.
Proof.
  revert b. induction s as [|c r IH]; intros b; simpl; [done|].
  pose proof (IH true). pose proof (IH false).
  destruct (is_whitespace c), b; simpl; lia.
Qed.

(** X3. When the input has a character that is neither illegal nor
    whitespace, the result is made of the input's own text: it begins
    with the first such character, and its non-whitespace characters are
    an initial part of the legal non-whitespace characters of the input,
    in the same order: all of them when the input has at most 200 code
    units. *)
Theorem sanitizeFilename_text (name : list N) :
  text (remove_illegal name) <> [] ->
  head (sanitizeFilename name) = head (text (remove_illegal name)) /\
  text (sanitizeFilename name) `prefix_of` text (remove_illegal name) /\
  (length name <= 200 -> text (sanitizeFilename name) = text (remove_illegal name)).
Proof.
  intros Htext. unfold sanitizeFilename. cbv zeta.
  destruct name as [|c0 name0]; [done|].
  change (falsy (c0 :: name0)) with false. cbv iota.
  set (name := c0 :: name0) in *.
  set (s1 := trim (collapse_whitespace false (remove_illegal name))).
  assert (Ht1 : text s1 = text (remove_illegal name))
    by (unfold s1; by rewrite text_trim, text_collapse).
  assert (Hlen1 : length s1 <= length name).
  { etrans; [apply piece_length, trim_piece|].
    etrans; [apply collapse_length|]. apply List.filter_length_le. }
  destruct s1 as [|c r] eqn:Es1; [by rewrite <- Ht1 in Htext|].
  assert (Hc : is_whitespace c = false).
  { pose proof (trim_trimmed (collapse_whitespace false (remove_illegal name))) as [H _].
    fold s1 in H. rewrite Es1 in H. by apply H. }
  rewrite <- Es1 in *. rewrite <- Ht1.
  assert (Hh1 : head s1 = Some c) by by rewrite Es1.
  destruct (200 <? length s1) eqn:E.
  - assert (Hh : head (trim (substring0 200 s1)) = Some c).
    { apply trim_head; [|done]. by rewrite Es1. }
    destruct (trim (substring0 200 s1)) as [|d r'] eqn:E2; [done|].
    change (falsy (d :: r')) with false. cbv iota. rewrite <- E2 in *.
    split; [by rewrite Hh, (text_head s1 c)|]. split.
    + rewrite text_trim. exists (text (drop 200 s1)).
      unfold substring0. by rewrite <- text_app, take_drop.
    + apply Nat.ltb_lt in E. lia.
  - rewrite Es1. change (falsy (c :: r)) with false. cbv iota. rewrite <- Es1.
    split; [by rewrite Hh1, (text_head s1 c)|]. done.
Qed.

Lemma sanitizeFilename_text_witness :
  text (sanitizeFilename (units " a/b: c ")) = units "abc".
Proof.
  destruct (sanitizeFilename_text (units " a/b: c ")) as (_ & _ & H); [discriminate|].
  rewrite H; [reflexivity | vm_compute; lia].
Defined.

(** X4. A non-empty input in which every character is illegal or
    whitespace gives the text download. *)
Theorem sanitizeFilename_blank (name : list N) :
  name <> [] ->
  Forall (fun c => is_illegal c = true \/ is_whitespace c = true) name ->
  sanitizeFilename name = units "download".
Proof.
  intros Hne Hall. unfold sanitizeFilename. cbv zeta.
  destruct name as [|c0 name0]; [done|].
  change (falsy (c0 :: name0)) with false. cbv iota.
  assert (Ht : text (remove_illegal (c0 :: name0)) = []).
  { clear Hne. induction Hall as [|c r Hc _ IH]; [done|]. simpl.
    destruct (is_illegal c) eqn:Ei; simpl; [done|].
    destruct Hc as [Hc|Hc]; [done|]. by rewrite Hc. }
  rewrite (text_nil_trim (collapse_whitespace false _)) by by rewrite text_collapse.
  reflexivity.
Qed.

Lemma sanitizeFilename_blank_witness :
  sanitizeFilename (units " ? ") = units "download".
Proof.
  apply (sanitizeFilename_blank (units " ? ")); [discriminate|].
  repeat (apply Forall_cons_2; [vm_compute; auto|]). apply Forall_nil_2.
Defined.

End UtilsFacts.

Section AdSessionFacts.
Import AdSession.

Example first_load :
  rewardedAd loaded_once = Some {| ad_id := 1 |} /\ isAdReady loaded_once = true.
Proof. split; reflexivity. Qed.

Lemma preloadAd_state w :
  isAdReady (preloadAd w) = false /\
  rewardedAd (preloadAd w) = rewardedAd w /\
  google_ad_platform (preloadAd w) = google_ad_platform w.
Proof. unfold preloadAd; simpl. destruct (google_ad_platform w) eqn:E; simpl; auto. Qed.

Lemma preloadAd_log w :
  log (preloadAd w) =
  log w ++ (if google_ad_platform w
            then [ ConsoleLog "Pre-loading new rewarded ad...";
                   RequestRewardedAd REWARDED_AD_UNIT_ID onAdLoaded onAdFailedToLoad ]
            else []).
Proof.
  unfold preloadAd; simpl. destruct (google_ad_platform w); simpl.
  - by rewrite <- app_assoc.
  - by rewrite app_nil_r.
Qed.

Lemma failure_callback_state w :
  isAdReady (invoke onAdFailedToLoad w) = false /\
  rewardedAd (invoke onAdFailedToLoad w) = rewardedAd w.
Proof. split; reflexivity. Qed.

(** C3 as stated fails once an earlier load has succeeded: the failure
    callback only resets readiness, the handle of the earlier ad stays
    stored. *)
Lemma failed_preload_keeps_earlier_handle :
  reachable loaded_once /\
  rewardedAd (invoke onAdFailedToLoad (preloadAd loaded_once)) = Some {| ad_id := 1 |} /\
  ~ failed_preload_empties loaded_once.
Proof.
  split; [|split].
  - exists true. eapply rtc_l; [by apply step_mount_timer|].
    eapply rtc_l; [|apply rtc_refl].
    apply (step_ad_loaded _ REWARDED_AD_UNIT_ID onAdLoaded onAdFailedToLoad {| ad_id := 1 |}).
    apply list_elem_of_In. simpl. auto.
  - reflexivity.
  - intros [_ H]. discriminate H.
Qed.

(** C3, amended.  A preload issues one request carrying the provider's
    failure callback; whenever the platform invokes that callback the
    readiness flag is false afterwards and the stored handle is the one
    stored before: directly after the preload it is the handle held
    before the call, hence empty exactly when it was empty before. *)
Theorem failed_preload_state (w : State) :
  google_ad_platform w = true ->
  exists onL onF,
    log (preloadAd w) =
      log w ++ [ ConsoleLog "Pre-loading new rewarded ad...";
                 RequestRewardedAd REWARDED_AD_UNIT_ID onL onF ] /\
    (forall w', isAdReady (invoke onF w') = false /\
                rewardedAd (invoke onF w') = rewardedAd w') /\
    isAdReady (invoke onF (preloadAd w)) = false /\
    rewardedAd (invoke onF (preloadAd w)) = rewardedAd w /\
    (rewardedAd (invoke onF (preloadAd w)) = None <-> rewardedAd w = None).
Proof.
  intros Hp. exists onAdLoaded, onAdFailedToLoad.
  split; [by rewrite preloadAd_log, Hp|].
  split; [intros w'; apply failure_callback_state|].
  destruct (failure_callback_state (preloadAd w)) as [H1 H2].
  destruct (preloadAd_state w) as (_ & H3 & _).
  rewrite H1, H2, H3. done.
Qed.

Lemma failed_preload_state_witness :
  exists onL onF,
    log (preloadAd loaded_once) =
      log loaded_once ++ [ ConsoleLog "Pre-loading new rewarded ad...";
                           RequestRewardedAd REWARDED_AD_UNIT_ID onL onF ] /\
    (forall w', isAdReady (invoke onF w') = false /\
                rewardedAd (invoke onF w') = rewardedAd w') /\
    isAdReady (invoke onF (preloadAd loaded_once)) = false /\
    rewardedAd (invoke onF (preloadAd loaded_once)) = rewardedAd loaded_once /\
    (rewardedAd (invoke onF (preloadAd loaded_once)) = None <-> rewardedAd loaded_once = None).
Proof. apply (failed_preload_state loaded_once). reflexivity. Defined.

(** C4. When no handle is stored or the readiness flag is false,
    [showRewardedAd] reports the failure (an error on the console and a
    blocking alert) and does nothing else: the state is unchanged, the
    platform's show operation is not called and [onReward] is not
    invoked. *)
Theorem show_without_ready_ad (w : State) :
  rewardedAd w = None \/ isAdReady w = false ->
  log (showRewardedAd w) =
    log w ++ [ ConsoleError "Ad not ready to be shown."; Alert NOT_READY_NOTICE ] /\
  rewardedAd (showRewardedAd w) = rewardedAd w /\
  isAdReady (showRewardedAd w) = isAdReady w /\
  (forall e, e ∈ drop (length (log w)) (log (showRewardedAd w)) ->
     e <> OnReward /\ forall ad onE onC, e <> Show ad onE onC).
Proof.
  intros H.
  assert (E : showRewardedAd w =
              emit (Alert NOT_READY_NOTICE) (emit (ConsoleError "Ad not ready to be shown.") w)).
  { unfold showRewardedAd. destruct H as [-> | ->]; [done|]. by destruct (rewardedAd w). }
  rewrite E. simpl. rewrite <- app_assoc. simpl.
  repeat split; try done.
  - rewrite drop_app_length in H0.
    apply list_elem_of_In in H0. simpl in H0. intuition congruence.
  - rewrite drop_app_length in H0.
    apply list_elem_of_In in H0. simpl in H0. intuition congruence.
Qed.

Lemma show_without_ready_ad_witness :
  log (showRewardedAd (preloadAd loaded_once)) =
    log (preloadAd loaded_once)
      ++ [ ConsoleError "Ad not ready to be shown."; Alert NOT_READY_NOTICE ].
Proof. apply (show_without_ready_ad (preloadAd loaded_once)). right. reflexivity. Defined.

Lemma terminal_callbacks_state w :
  invoke onUserEarnedReward w
    = preloadAd (emit OnReward (emit (ConsoleLog "User earned reward!") w)) /\
  invoke onAdClosed w = preloadAd (emit (ConsoleLog "Ad closed by user.") w).
Proof. split; reflexivity. Qed.

Lemma show_after_preload_fails w :
  log (showRewardedAd (preloadAd w)) =
    log (preloadAd w) ++ [ ConsoleError "Ad not ready to be shown."; Alert NOT_READY_NOTICE ].
Proof.
  unfold showRewardedAd. destruct (preloadAd_state w) as (-> & _ & _).
  destruct (rewardedAd (preloadAd w)); simpl; by rewrite <- app_assoc.
Qed.

(** C5. With a stored handle and readiness true, [showRewardedAd] calls
    the platform's show operation on that handle with two callbacks.  The
    earned-reward callback invokes [onReward] once and then calls
    [preloadAd] once; the closed callback calls [preloadAd] once and never
    invokes [onReward].  Whenever the platform invokes either of them,
    the preload has been made when the callback returns (its request is in
    the log if the platform is present) and readiness is false, so that a
    [showRewardedAd] made then fails with the notice: a later show can
    succeed only once a load has succeeded again. *)
Theorem show_ready_ad (w : State) (ad : RewardedAd) :
  rewardedAd w = Some ad -> isAdReady w = true ->
  exists onE onC,
    log (showRewardedAd w) =
      log w ++ [ ConsoleLog "Showing rewarded ad..."; Show ad onE onC ] /\
    (exists pre, onE = pre ++ [COnReward; CPreloadAd] /\
                 (COnReward ∉ pre) /\ (CPreloadAd ∉ pre)) /\
    count_occ Cmd_eq_dec onC CPreloadAd = 1 /\
    count_occ Cmd_eq_dec onC COnReward = 0 /\
    forall w',
      log (invoke onE w') =
        log w' ++ [ ConsoleLog "User earned reward!"; OnReward ]
              ++ (if google_ad_platform w'
                  then [ ConsoleLog "Pre-loading new rewarded ad...";
                         RequestRewardedAd REWARDED_AD_UNIT_ID onAdLoaded onAdFailedToLoad ]
                  else []) /\
      log (invoke onC w') =
        log w' ++ [ ConsoleLog "Ad closed by user." ]
              ++ (if google_ad_platform w'
                  then [ ConsoleLog "Pre-loading new rewarded ad...";
                         RequestRewardedAd REWARDED_AD_UNIT_ID onAdLoaded onAdFailedToLoad ]
                  else []) /\
      isAdReady (invoke onE w') = false /\
      isAdReady (invoke onC w') = false /\
      log (showRewardedAd (invoke onE w')) =
        log (invoke onE w')
          ++ [ ConsoleError "Ad not ready to be shown."; Alert NOT_READY_NOTICE ] /\
      log (showRewardedAd (invoke onC w')) =
        log (invoke onC w')
          ++ [ ConsoleError "Ad not ready to be shown."; Alert NOT_READY_NOTICE ].
Proof.
  intros Had Hready. exists onUserEarnedReward, onAdClosed.
  split.
  { unfold showRewardedAd. rewrite Had, Hready. simpl. by rewrite <- app_assoc. }
  split.
  { exists [CConsoleLog "User earned reward!"]. split; [done|].
    split; intros H; apply list_elem_of_In in H; simpl in H; intuition congruence. }
  split; [reflexivity|]. split; [reflexivity|].
  intros w'. destruct (terminal_callbacks_state w') as [-> ->].
  rewrite !show_after_preload_fails, !preloadAd_log. simpl.
  rewrite <- !app_assoc. simpl.
  repeat split; try done; apply preloadAd_state.
Qed.

Lemma show_ready_ad_witness :
  exists onE onC,
    log (showRewardedAd loaded_once) =
      log loaded_once ++ [ ConsoleLog "Showing rewarded ad..."; Show {| ad_id := 1 |} onE onC ] /\
    isAdReady (invoke onE (showRewardedAd loaded_once)) = false /\
    isAdReady (invoke onC (showRewardedAd loaded_once)) = false.
Proof.
  destruct (show_ready_ad loaded_once {| ad_id := 1 |})
    as (onE & onC & Hlog & _ & _ & _ & Hcb); [reflexivity | reflexivity |].
  exists onE, onC. split; [exact Hlog|].
  destruct (Hcb (showRewardedAd loaded_once)) as (_ & _ & HE & HC & _).
  split; [exact HE | exact HC].
Defined.

Lemma invoke_own_preserves w :
  handle_invariant w -> Forall own_callbacks (log w) ->
  (forall ad, handle_invariant (invoke (onAdLoaded ad) w) /\
              Forall own_callbacks (log (invoke (onAdLoaded ad) w))) /\
  (handle_invariant (invoke onAdFailedToLoad w) /\
   Forall own_callbacks (log (invoke onAdFailedToLoad w))).
Proof.
  intros Hinv Hlog. split; [intros ad|]; (split; [by intros ?|]); simpl;
    apply Forall_app; (split; [done|]); by repeat constructor.
Qed.

Lemma preloadAd_preserves w :
  Forall own_callbacks (log w) ->
  handle_invariant (preloadAd w) /\ Forall own_callbacks (log (preloadAd w)).
Proof.
  intros Hlog. split.
  - intros _. apply preloadAd_state.
  - rewrite preloadAd_log. apply Forall_app. split; [done|].
    destruct (google_ad_platform w); by repeat constructor.
Qed.

Lemma emit_own e w :
  own_callbacks e -> Forall own_callbacks (log w) -> Forall own_callbacks (log (emit e w)).
Proof. intros He Hlog. simpl. apply Forall_app. split; [done | by constructor]. Qed.

Lemma showRewardedAd_preserves w :
  handle_invariant w -> Forall own_callbacks (log w) ->
  handle_invariant (showRewardedAd w) /\ Forall own_callbacks (log (showRewardedAd w)).
Proof.
  intros Hinv Hlog. unfold showRewardedAd, handle_invariant in *.
  destruct (rewardedAd w) as [ad|] eqn:E1, (isAdReady w) eqn:E2;
    (split; [simpl; rewrite ?E1, ?E2; auto; congruence|]);
    repeat apply emit_own; done.
Qed.

Lemma step_preserves w w' :
  step w w' ->
  handle_invariant w /\ Forall own_callbacks (log w) ->
  handle_invariant w' /\ Forall own_callbacks (log w').
Proof.
  intros Hstep [Hinv Hlog].
  destruct Hstep as [w _ | w d | w | w u onL onF ad Hin | w u onL onF Hin
                    | w ad onE onC Hin | w ad onE onC Hin].
  - by apply preloadAd_preserves.
  - apply preloadAd_preserves. by apply emit_own.
  - by apply showRewardedAd_preserves.
  - rewrite Forall_forall in Hlog. destruct (Hlog _ Hin) as [-> _].
    apply invoke_own_preserves; [done | by apply Forall_forall].
  - rewrite Forall_forall in Hlog. destruct (Hlog _ Hin) as [_ ->].
    apply invoke_own_preserves; [done | by apply Forall_forall].
  - rewrite Forall_forall in Hlog. destruct (Hlog _ Hin) as [-> _].
    destruct (terminal_callbacks_state w) as [-> _].
    apply preloadAd_preserves. repeat apply emit_own; try done. by apply Forall_forall.
  - rewrite Forall_forall in Hlog. destruct (Hlog _ Hin) as [_ ->].
    destruct (terminal_callbacks_state w) as [_ ->].
    apply preloadAd_preserves. repeat apply emit_own; try done. by apply Forall_forall.
Qed.

(** C6. In every state the provider can reach (from the initial state,
    by preloads, load successes and failures, shows and the callbacks of
    shown ads, in any order), a null handle implies a false readiness
    flag. *)
Theorem null_handle_not_ready (w : State) :
  reachable w -> rewardedAd w = None -> isAdReady w = false.
Proof.
  intros [platform Hrtc].
  enough (handle_invariant w /\ Forall own_callbacks (log w)) as [H _] by exact H.
  assert (H0 : handle_invariant (init platform) /\ Forall own_callbacks (log (init platform)))
    by (split; [by intros _ | constructor]).
  remember (init platform) as w0 eqn:E. clear E.
  induction Hrtc as [|w1 w2 w3 Hstep _ IH]; [exact H0|].
  eapply IH, step_preserves; eauto.
Qed.

Lemma null_handle_not_ready_witness :
  isAdReady (showRewardedAd (preloadAd (init true))) = false.
Proof.
  apply (null_handle_not_ready (showRewardedAd (preloadAd (init true)))).
  - exists true. eapply rtc_l; [by apply step_mount_timer|].
    eapply rtc_l; [apply step_show | apply rtc_refl].
  - reflexivity.
Defined.

(** *** The platform global, and the order of effects *)

Lemma invoke_platform cb w :
  google_ad_platform (invoke cb w) = google_ad_platform w.
Proof.
  revert w. induction cb as [|c cb IH]; intros w; [done|].
  change (invoke (c :: cb) w) with (invoke cb (exec c w)). rewrite IH.
  destruct c; try done. apply preloadAd_state.
Qed.

Lemma step_platform w w' :
  step w w' -> google_ad_platform w' = false -> google_ad_platform w = false.
Proof.
  intros Hstep. destruct Hstep; rewrite ?invoke_platform; try done.
  - destruct (preloadAd_state w) as (_ & _ & ->). done.
  - unfold onLoad. destruct (preloadAd_state (emit (ConsoleLog "Rewarded Ad SDK loaded.")
        (mkState (rewardedAd w) (isAdReady w) (google_ad_platform w || defined) (log w))))
      as (_ & _ & ->). simpl. by intros [-> _]%orb_false_iff.
  - unfold showRewardedAd. by destruct (rewardedAd w), (isAdReady w).
Qed.

Lemma step_idle w w' :
  step w w' -> google_ad_platform w' = false -> idle w -> idle w'.
Proof.
  intros Hstep Hp' (Hnone & Hnot & Hlog).
  pose proof (step_platform _ _ Hstep Hp') as Hp.
  assert (Hno : forall e, e ∈ log w -> is_request e = true \/ is_show e = true -> False).
  { intros e He. rewrite Forall_forall in Hlog. destruct (Hlog e He) as [-> ->].
    by intros [|]. }
  destruct Hstep as [w Hw | w d | w | w u onL onF ad Hin | w u onL onF Hin
                    | w ad onE onC Hin | w ad onE onC Hin];
    try (by destruct (Hno _ Hin); auto).
  - congruence.
  - unfold onLoad, preloadAd in *. simpl in *.
    destruct (google_ad_platform w || d) eqn:E; simpl in *; [done|].
    repeat split; try done. apply Forall_app. split; [done|]. by repeat constructor.
  - unfold showRewardedAd, idle. rewrite Hnone. simpl.
    repeat split; try done. rewrite <- app_assoc.
    apply Forall_app. split; [done|]. by repeat constructor.
Qed.

(** X5. While [window.google_ad_platform] is undefined nothing happens
    with ads: in every reachable state in which the global is still
    undefined, no ad has been requested or shown, no handle is stored and
    the readiness flag is false. *)
Theorem without_platform (w : State) :
  reachable w -> google_ad_platform w = false ->
  rewardedAd w = None /\ isAdReady w = false /\
  Forall (fun e => is_request e = false /\ is_show e = false) (log w).
Proof.
  intros [platform Hrtc]. change (google_ad_platform w = false -> idle w).
  remember (init platform) as w0 eqn:E.
  assert (H0 : google_ad_platform w0 = false -> idle w0)
    by (subst; intros _; repeat split; constructor).
  clear E. induction Hrtc as [|w1 w2 w3 Hstep Hrtc IH]; [exact H0|].
  apply IH. intros Hp. eapply step_idle; eauto.
  apply H0. by eapply step_platform.
Qed.

Lemma without_platform_witness :
  rewardedAd (showRewardedAd (onLoad false (init false))) = None /\
  isAdReady (showRewardedAd (onLoad false (init false))) = false /\
  Forall (fun e => is_request e = false /\ is_show e = false)
    (log (showRewardedAd (onLoad false (init false)))).
Proof.
  apply (without_platform (showRewardedAd (onLoad false (init false)))).
  - exists false. eapply rtc_l; [apply (step_script_loaded _ false)|].
    eapply rtc_l; [apply step_show | apply rtc_refl].
  - reflexivity.
Defined.

Lemma ordered_snoc l e :
  ordered l ->
  (e = OnReward -> exists e', e' ∈ l /\ is_show e' = true) ->
  (is_show e = true -> exists e', e' ∈ l /\ is_request e' = true) ->
  ordered (l ++ [e]).
Proof.
  intros Hl Hr Hs l1 x l2 Heq.
  destruct l2 as [|y l2 _] using rev_ind.
  - apply app_inj_tail in Heq as [-> ->]. by split.
  - rewrite app_comm_cons, app_assoc in Heq.
    apply app_inj_tail in Heq as [-> ->]. by apply (Hl l1 x l2).
Qed.

Lemma ordered_emit e w :
  ordered (log w) ->
  (e = OnReward -> exists e', e' ∈ log w /\ is_show e' = true) ->
  (is_show e = true -> exists e', e' ∈ log w /\ is_request e' = true) ->
  ordered (log (emit e w)).
Proof. apply ordered_snoc. Qed.

Lemma ordered_preloadAd w : ordered (log w) -> ordered (log (preloadAd w)).
Proof.
  intros H. unfold preloadAd. simpl. destruct (google_ad_platform w); [|done].
  repeat apply ordered_emit; done.
Qed.

Lemma requested_preloadAd w : requested w -> requested (preloadAd w).
Proof.
  intros H Hne. destruct (preloadAd_state w) as (_ & Hr & _). rewrite Hr in Hne.
  destruct (H Hne) as (e & He & Hreq). exists e. split; [|done].
  rewrite preloadAd_log. apply elem_of_app. by left.
Qed.

Lemma requested_emit e w : requested w -> requested (emit e w).
Proof.
  intros H Hne. destruct (H Hne) as (e' & He & Hreq). exists e'. split; [|done].
  simpl. apply elem_of_app. by left.
Qed.

Lemma step_ordered w w' :
  step w w' ->
  Forall own_callbacks (log w) -> ordered (log w) /\ requested w ->
  ordered (log w') /\ requested w'.
Proof.
  intros Hstep Hown [Hord Hreq].
  destruct Hstep as [w _ | w d | w | w u onL onF ad Hin | w u onL onF Hin
                    | w ad onE onC Hin | w ad onE onC Hin].
  - split; [by apply ordered_preloadAd | by apply requested_preloadAd].
  - split; [apply ordered_preloadAd, ordered_emit; done|].
    apply requested_preloadAd. by apply (requested_emit _ (mkState _ _ _ _)).
  - unfold showRewardedAd.
    destruct (rewardedAd w) as [ad|] eqn:E1, (isAdReady w) eqn:E2;
      (split; [|intros Hne; simpl in Hne; rewrite E1 in Hne;
                destruct (Hreq ltac:(by rewrite E1)) as (e & He & Hr);
                exists e; split; [simpl; rewrite <- app_assoc; apply elem_of_app; by left | done]]);
      repeat apply ordered_emit; try done.
    intros _. destruct (Hreq ltac:(by rewrite E1)) as (e & He & Hr).
    exists e. split; [simpl; apply elem_of_app; by left | done].
  - rewrite Forall_forall in Hown. destruct (Hown _ Hin) as [-> _].
    split; [by apply ordered_emit|].
    intros _. exists (RequestRewardedAd u onAdLoaded onF).
    split; [simpl; apply elem_of_app; by left | done].
  - rewrite Forall_forall in Hown. destruct (Hown _ Hin) as [_ ->].
    split; [by apply ordered_emit|].
    intros Hne. destruct (Hreq Hne) as (e & He & Hr).
    exists e. split; [simpl; apply elem_of_app; by left | done].
  - rewrite Forall_forall in Hown. destruct (Hown _ Hin) as [-> _].
    destruct (terminal_callbacks_state w) as [-> _].
    split.
    + apply ordered_preloadAd. repeat apply ordered_emit; try done.
      intros _. exists (Show ad onUserEarnedReward onC).
      split; [simpl; apply elem_of_app; by left | done].
    + apply requested_preloadAd. by repeat apply requested_emit.
  - rewrite Forall_forall in Hown. destruct (Hown _ Hin) as [_ ->].
    destruct (terminal_callbacks_state w) as [_ ->].
    split; [apply ordered_preloadAd; by apply ordered_emit|].
    apply requested_preloadAd. by apply requested_emit.
Qed.

(** X6. No reward without a show, no show without a request: in the
    effect log of every reachable state, each invocation of [onReward]
    comes after a call of the platform's show operation, and each such
    call after a request for an ad. *)
Theorem reward_after_show (w : State) (l1 l2 : list Effect) (e : Effect) :
  reachable w -> log w = l1 ++ e :: l2 ->
  (e = OnReward -> exists e', e' ∈ l1 /\ is_show e' = true) /\
  (is_show e = true -> exists e', e' ∈ l1 /\ is_request e' = true).
Proof.
  intros [platform Hrtc].
  enough ((handle_invariant w /\ Forall own_callbacks (log w)) /\
          ordered (log w) /\ requested w) as (_ & H & _) by apply H.
  remember (init platform) as w0 eqn:E.
  assert (H0 : (handle_invariant w0 /\ Forall own_callbacks (log w0)) /\
               ordered (log w0) /\ requested w0).
  { subst. split; [split; [by intros _ | constructor]|].
    split; [by intros [] ? ? | by intros ?]. }
  clear E. induction Hrtc as [|w1 w2 w3 Hstep _ IH]; [exact H0|].
  apply IH. destruct H0 as [Ha Hb]. split.
  - by eapply step_preserves.
  - eapply step_ordered; [done | apply Ha | done].
Qed.

Lemma reward_after_show_witness :
  exists e', e' ∈ log (showRewardedAd loaded_once) /\ is_show e' = true.
Proof.
  assert (Hlog : log (invoke onUserEarnedReward (showRewardedAd loaded_once)) =
    log (showRewardedAd loaded_once)
      ++ ConsoleLog "User earned reward!"
      :: OnReward
      :: [ ConsoleLog "Pre-loading new rewarded ad...";
           RequestRewardedAd REWARDED_AD_UNIT_ID onAdLoaded onAdFailedToLoad ])
    by reflexivity.
  assert (Hreach : reachable (invoke onUserEarnedReward (showRewardedAd loaded_once))).
  { exists true. eapply rtc_l; [by apply step_mount_timer|].
    eapply rtc_l.
    { apply (step_ad_loaded _ REWARDED_AD_UNIT_ID onAdLoaded onAdFailedToLoad {| ad_id := 1 |}).
      apply list_elem_of_In. simpl. auto. }
    eapply rtc_l; [apply step_show|].
    eapply rtc_l; [|apply rtc_refl].
    apply (step_earned_reward _ {| ad_id := 1 |} onUserEarnedReward onAdClosed).
    apply list_elem_of_In. simpl. auto 10. }
  destruct (reward_after_show _
              (log (showRewardedAd loaded_once) ++ [ConsoleLog "User earned reward!"])
              [ ConsoleLog "Pre-loading new rewarded ad...";
                RequestRewardedAd REWARDED_AD_UNIT_ID onAdLoaded onAdFailedToLoad ]
              OnReward Hreach) as [H _].
  { rewrite Hlog, <- app_assoc. reflexivity. }
  destruct (H eq_refl) as (e' & He & Hs). exists e'. split; [|exact Hs].
  apply elem_of_app in He as [He | He]; [exact He|].
  apply list_elem_of_In in He. simpl in He. destruct He as [<- | []]. discriminate Hs.
Defined.

Lemma requests_preloadAd w :
  google_ad_platform w = true -> requests (log (preloadAd w)) = S (requests (log w)).
Proof.
  intros Hp. rewrite preloadAd_log, Hp. unfold requests.
  rewrite List.filter_app, length_app. simpl. lia.
Qed.

(** X7. Preloads are not merged: with the platform defined, every call
    of [preloadAd] issues a request of its own, whether or not earlier
    requests are still unanswered, so [n] calls in a row leave [n] more
    requests in the log. *)
Theorem preloads_accumulate (n : nat) (w : State) :
  google_ad_platform w = true ->
  requests (log (Nat.iter n preloadAd w)) = requests (log w) + n /\
  google_ad_platform (Nat.iter n preloadAd w) = true.
Proof.
  intros Hp. induction n as [|n [IH1 IH2]]; [simpl; split; [lia | done]|].
  change (Nat.iter (S n) preloadAd w) with (preloadAd (Nat.iter n preloadAd w)).
  rewrite requests_preloadAd, IH1 by done. split; [lia|].
  destruct (preloadAd_state (Nat.iter n preloadAd w)) as (_ & _ & ->). done.
Qed.

Lemma preloads_accumulate_witness :
  requests (log (Nat.iter 2 preloadAd (init true))) = 2.
Proof. apply (preloads_accumulate 2 (init true)). reflexivity. Defined.

End AdSessionFacts.

Section ModalFacts.
Import Modal.

(** The deadlines order the first firings: the initialisation of the
    countdown comes before the first tick and before the ad-load delay. *)
Example deadlines :
  (delay InitTimer < delay IntervalTimer < delay AdLoadTimer)%Z.
Proof. unfold delay. lia. Qed.

Example opened_timers :
  timers opened = {[ 1 := InitTimer; 2 := IntervalTimer; 3 := AdLoadTimer ]} /\
  cleanup opened = Some opened_cleanup.
Proof. split; reflexivity. Qed.

(** Fifteen ticks, then the ad: unlockable.  The ad first, then fifteen
    ticks: unlockable.  One of the two alone: not. *)
Example ad_last :
  isUnlockable (fire_all opened_cleanup
                  (FireInit :: repeat FireInterval 15 ++ [FireAdLoad]) opened) = true.
Proof. reflexivity. Qed.

Example ad_first :
  isUnlockable (fire_all opened_cleanup
                  (FireInit :: FireAdLoad :: repeat FireInterval 15) opened) = true.
Proof. reflexivity. Qed.

Example ad_only :
  isUnlockable (fire_all opened_cleanup
                  (FireInit :: FireAdLoad :: repeat FireInterval 14) opened) = false.
Proof. reflexivity. Qed.

Example countdown_only :
  isUnlockable (fire_all opened_cleanup (FireInit :: repeat FireInterval 20) opened) = false.
Proof. reflexivity. Qed.

Lemma isUnlockable_iff m :
  isUnlockable m = true <-> countdown m = 0%Z /\ isAdLoaded m = true.
Proof.
  unfold isUnlockable. rewrite andb_true_iff, Z.eqb_eq. done.
Qed.

Lemma fire_kind_counting c k m :
  counting c m ->
  counting c (fire_kind c k m) /\
  countdown (fire_kind c k m)
    = (if decide (k = FireInterval) then Z.max 0 (countdown m - 1) else countdown m) /\
  isAdLoaded (fire_kind c k m)
    = (isAdLoaded m || bool_decide (k = FireAdLoad)).
Proof.
  intros (Hpos & H1 & H2 & H3 & N12 & N13 & N23).
  destruct k; unfold fire_kind, fire.
  - rewrite H1, orb_false_r. repeat split; done.
  - rewrite H2, orb_false_r. destruct (0 <? countdown m)%Z eqn:E.
    + apply Z.ltb_lt in E. destruct (countdown m <=? 1)%Z eqn:E1; unfold counting; simpl.
      * apply Z.leb_le in E1.
        rewrite lookup_delete_eq, !lookup_delete_ne, H1, H3 by done.
        repeat split; try done. lia.
      * apply Z.leb_gt in E1. rewrite H1, H2, H3.
        assert ((0 <? countdown m - 1)%Z = true) as -> by (apply Z.ltb_lt; lia).
        repeat split; try done; lia.
    + apply Z.ltb_ge in E. unfold counting. rewrite H1, H2, H3. simpl.
      assert ((0 <? countdown m)%Z = false) as Hz by (apply Z.ltb_ge; lia).
      repeat split; try done; try lia. by rewrite Hz.
  - rewrite H3. destruct (isAdLoaded m) eqn:E; unfold counting; simpl.
    + rewrite H1, H2, H3, E. repeat split; done.
    + rewrite lookup_delete_eq, !lookup_delete_ne, H1, H2 by done.
      repeat split; done.
Qed.

Lemma fire_all_counting c ks m :
  counting c m ->
  counting c (fire_all c ks m) /\
  countdown (fire_all c ks m) = Z.max 0 (countdown m - ticks ks) /\
  isAdLoaded (fire_all c ks m) = (isAdLoaded m || bool_decide (FireAdLoad ∈ ks)).
Proof.
  revert m. induction ks as [|k ks IH]; intros m Hm.
  - unfold ticks. simpl. rewrite orb_false_r.
    split; [done|]. destruct Hm as (Hpos & _). split; [lia | done].
  - destruct (fire_kind_counting c k m Hm) as (Hm' & Hc & Ha).
    destruct (IH _ Hm') as (IH1 & IH2 & IH3).
    change (fire_all c (k :: ks) m) with (fire_all c ks (fire_kind c k m)).
    split; [done|]. rewrite IH2, IH3, Hc, Ha. clear IH IH1 IH2 IH3 Hc Ha.
    destruct Hm as (Hpos & _). unfold ticks. simpl count_occ.
    split.
    + destruct k; simpl; try lia.
    + rewrite <- orb_assoc. f_equal.
      destruct k; simpl;
        [apply bool_decide_ext; rewrite elem_of_cons; intuition congruence.. | done].
Qed.

Lemma opened_counting : counting opened_cleanup (fire 1 opened).
Proof. unfold counting. simpl. repeat split; done. Qed.

(** C2. Whenever the modal is rendered, its unlock button is enabled if
    and only if the countdown is 0 and the ad-loaded flag is true.  The
    order in which the two come about does not matter: after the modal
    has opened and its countdown has been initialised, whatever the order
    in which the interval and the ad-load delay then fire, the button is
    enabled if and only if the interval has been due fifteen times and
    the ad-load delay has fired. *)
Theorem unlock_enabled_iff :
  (forall (isOpen : bool) (m : State) (v : View),
     render isOpen m = Some v ->
     (unlock_disabled v = false <-> countdown m = 0%Z /\ isAdLoaded m = true)) /\
  (forall (ks : list Firing) (v : View),
     render true (fire_all opened_cleanup ks (fire 1 opened)) = Some v ->
     (unlock_disabled v = false <-> (15 <= ticks ks)%Z /\ FireAdLoad ∈ ks)).
Proof.
  assert (H : forall isOpen m v, render isOpen m = Some v ->
            (unlock_disabled v = false <-> countdown m = 0%Z /\ isAdLoaded m = true)).
  { intros isOpen m v. unfold render. destruct isOpen; simpl; [|done].
    intros [= <-]. simpl. rewrite negb_false_iff. apply isUnlockable_iff. }
  split; [exact H|].
  intros ks v Hv. rewrite (H _ _ _ Hv).
  destruct (fire_all_counting opened_cleanup ks _ opened_counting) as (_ & -> & ->).
  change (countdown (fire 1 opened)) with 15%Z.
  change (isAdLoaded (fire 1 opened)) with false. simpl.
  rewrite bool_decide_eq_true. split; intros [H1 H2]; (split; [lia | done]).
Qed.

Lemma unlock_enabled_iff_witness :
  exists v,
    render true (fire_all opened_cleanup
                   (FireAdLoad :: repeat FireInterval 15) (fire 1 opened)) = Some v /\
    unlock_disabled v = false.
Proof.
  eexists. split; [reflexivity|].
  apply (proj2 unlock_enabled_iff (FireAdLoad :: repeat FireInterval 15) _ eq_refl).
  split; [vm_compute; discriminate | constructor].
Defined.

(** X17. Once the countdown has been initialised, it only depends on
    how often the interval has been due: after any firings it equals the
    earlier value less the number of ticks, but not less than 0, and the
    interval is still pending exactly when the countdown is above 0: it
    stops itself on reaching 0. *)
Theorem countdown_after_ticks (c : Cleanup) (ks : list Firing) (m : State) :
  counting c m ->
  countdown (fire_all c ks m) = Z.max 0 (countdown m - ticks ks) /\
  (timers (fire_all c ks m) !! interval c = Some IntervalTimer <->
   (ticks ks < countdown m)%Z) /\
  (timers (fire_all c ks m) !! interval c = None <->
   (countdown m <= ticks ks)%Z).
Proof.
  intros Hm. destruct (fire_all_counting c ks m Hm) as ((Hpos & _ & Hi & _) & Hc & _).
  rewrite Hi, Hc. split; [done|].
  destruct (0 <? 0 `max` (countdown m - ticks ks))%Z eqn:E.
  - apply Z.ltb_lt in E. split; split; try done; lia.
  - apply Z.ltb_ge in E. split; split; try done; lia.
Qed.

Lemma countdown_after_ticks_witness :
  countdown (fire_all opened_cleanup (repeat FireInterval 4) (fire 1 opened)) = 11%Z.
Proof.
  destruct (countdown_after_ticks opened_cleanup (repeat FireInterval 4) (fire 1 opened))
    as (H & _).
  - unfold counting. simpl. repeat split; done.
  - rewrite H. reflexivity.
Defined.

End ModalFacts.

Section PageFacts.
Import Page.

Example encode_ex :
  encodeURIComponent "a b&c=d/e?f" = Some "a%20b%26c%3Dd%2Fe%3Ff".
Proof. reflexivity. Qed.

(** A letter of two bytes, a surrogate pair, and the last code point
    before the surrogates. *)
Example encode_utf8_ex :
  encodeURIComponent (wtf8 [0xE9%N]) = Some "%C3%A9" /\
  encodeURIComponent (wtf8 [0xD83D%N; 0xDE00%N]) = Some "%F0%9F%98%80" /\
  encodeURIComponent (wtf8 [0xD7FF%N]) = Some "%ED%9F%BF".
Proof. repeat split; reflexivity. Qed.

(** Unpaired surrogates: a high one alone, a low one alone, a pair in
    the wrong order. *)
Example encode_throws_ex :
  encodeURIComponent (wtf8 [0x61%N; 0xD83D%N]) = None /\
  encodeURIComponent (wtf8 [0xDE00%N; 0x61%N]) = None /\
  encodeURIComponent (wtf8 [0xDE00%N; 0xD83D%N]) = None.
Proof. repeat split; reflexivity. Qed.

Example parse_query_ex :
  parse_query "url=a%26b&format_id=22" = [("url", "a%26b"); ("format_id", "22")].
Proof. reflexivity. Qed.

(** *** Strings *)

Lemma append_cons c s t : String c s +:+ t = String c (s +:+ t).
Proof. reflexivity. Qed.

Lemma append_nil t : EmptyString +:+ t = t.
Proof. reflexivity. Qed.

Lemma append_assoc s t u : (s +:+ t) +:+ u = s +:+ (t +:+ u).
Proof. induction s as [|c s IH]; [done|]. by rewrite !append_cons, IH. Qed.

Lemma all_chars_append p s t :
  all_chars p (s +:+ t) = all_chars p s && all_chars p t.
Proof.
  induction s as [|c s IH]; [done|].
  rewrite append_cons. simpl. by rewrite IH, andb_assoc.
Qed.

Lemma all_chars_weaken (p q : ascii -> bool) s :
  (forall c, p c = true -> q c = true) -> all_chars p s = true -> all_chars q s = true.
Proof.
  intros Hpq. induction s as [|c s IH]; [done|]. simpl.
  rewrite !andb_true_iff. intros [H1 H2]. auto.
Qed.

(** *** Percent-encoding *)

Lemma hex_digit_unreserved c :
  unreserved (hex_digit (N_of_ascii c / 16)) = true /\
  unreserved (hex_digit (N_of_ascii c mod 16)) = true.
Proof. destruct c as [[] [] [] [] [] [] [] []]; split; reflexivity. Qed.

Lemma hex_roundtrip c :
  hex_value (hex_digit (N_of_ascii c / 16)) = Some (N_of_ascii c / 16)%N /\
  hex_value (hex_digit (N_of_ascii c mod 16)) = Some (N_of_ascii c mod 16)%N /\
  ascii_of_N (16 * (N_of_ascii c / 16) + N_of_ascii c mod 16) = c.
Proof. destruct c as [[] [] [] [] [] [] [] []]; repeat split; reflexivity. Qed.

Lemma unreserved_not_percent c : unreserved c = true -> (c =? "%")%char = false.
Proof. destruct c as [[] [] [] [] [] [] [] []]; vm_compute; congruence. Qed.

Lemma encode_escaped s : all_chars escaped_char (escape s) = true.
Proof.
  induction s as [|c s IH]; [done|]. simpl.
  destruct (unreserved c) eqn:E.
  - rewrite append_cons, append_nil. simpl. unfold escaped_char at 1. by rewrite E, IH.
  - unfold percent. rewrite !append_cons, append_nil. simpl.
    destruct (hex_digit_unreserved c) as [H1 H2].
    unfold escaped_char at 1 2. rewrite H1, H2, IH. reflexivity.
Qed.

Lemma percent_decode_encode s : percent_decode (escape s) = Some s.
Proof.
  induction s as [|c s IH]; [done|]. simpl.
  destruct (unreserved c) eqn:E.
  - rewrite append_cons, append_nil. simpl.
    by rewrite (unreserved_not_percent c E), IH.
  - unfold percent. rewrite !append_cons, append_nil.
    destruct (hex_roundtrip c) as (H1 & H2 & H3).
    simpl. by rewrite H1, H2, IH, H3.
Qed.

(** *** Query strings *)

Lemma split_on_last sep s :
  all_chars (not_sep sep) s = true -> split_on sep s = [s].
Proof.
  induction s as [|c s IH]; [done|]. simpl. unfold not_sep at 1.
  rewrite andb_true_iff, negb_true_iff. intros [-> H]. by rewrite (IH H).
Qed.

Lemma split_on_field sep s t :
  all_chars (not_sep sep) s = true ->
  split_on sep (s +:+ String sep t) = s :: split_on sep t.
Proof.
  induction s as [|c s IH].
  - intros _. rewrite append_nil. simpl. by rewrite Ascii.eqb_refl.
  - simpl. unfold not_sep at 1. rewrite andb_true_iff, negb_true_iff.
    intros [Hc H]. by rewrite Hc, (IH H).
Qed.

Lemma escaped_not_sep sep s :
  escaped_char sep = false ->
  all_chars escaped_char s = true -> all_chars (not_sep sep) s = true.
Proof.
  intros Hsep. apply all_chars_weaken. intros c Hc. unfold not_sep.
  destruct (Ascii.eqb_spec c sep) as [->|]; [congruence | done].
Qed.

Lemma split_on_encoded k e rest :
  all_chars (not_sep "&") k = true ->
  split_on "&" (k +:+ escape e +:+ String "&" rest)
  = (k +:+ escape e) :: split_on "&" rest.
Proof.
  intros Hk. rewrite <- append_assoc. apply split_on_field.
  rewrite all_chars_append, Hk. simpl.
  apply escaped_not_sep; [reflexivity | apply encode_escaped].
Qed.

Lemma split_on_encoded_last k e :
  all_chars (not_sep "&") k = true ->
  split_on "&" (k +:+ escape e) = [k +:+ escape e].
Proof.
  intros Hk. apply split_on_last. rewrite all_chars_append, Hk. simpl.
  apply escaped_not_sep; [reflexivity | apply encode_escaped].
Qed.

Lemma encodeURIComponent_well_formed s :
  unpaired_surrogate s = false -> encodeURIComponent s = Some (escape s).
Proof. intros H. unfold encodeURIComponent. by rewrite H. Qed.

Lemma encodeURIComponent_Some s e :
  encodeURIComponent s = Some e -> unpaired_surrogate s = false /\ e = escape s.
Proof.
  unfold encodeURIComponent. destruct (unpaired_surrogate s); [done|].
  by intros [= <-].
Qed.

(** *** The bytes that stand for a JavaScript string

    The test on bytes that [encodeURIComponent] makes is the test of the
    builtin on code units: the byte form of a sequence of UTF-16 code
    units has the pattern of an unpaired surrogate exactly when the
    sequence has a surrogate without its partner. *)

Ltac div_lia := zify; Z.to_euclidean_division_equations; lia.

Lemma surrogate_lead_byte n :
  (n < 256)%N -> surrogate_lead (ascii_of_N n) = (n =? 0xED)%N.
Proof. intros H. unfold surrogate_lead. by rewrite N_ascii_embedding. Qed.

Lemma surrogate_second_byte n :
  (n < 256)%N ->
  surrogate_second (ascii_of_N n) = ((0xA0 <=? n) && (n <=? 0xBF))%N.
Proof. intros H. unfold surrogate_second. by rewrite N_ascii_embedding. Qed.

Lemma unpaired_cons b bs :
  unpaired_surrogate (bytes_text (b :: bs))
  = (surrogate_lead (ascii_of_N b)
     && match bs with
        | d :: _ => surrogate_second (ascii_of_N d)
        | [] => false
        end)
    || unpaired_surrogate (bytes_text bs).
Proof. by destruct bs. Qed.

Lemma unpaired_continuation x bs :
  (x < 0x40)%N ->
  unpaired_surrogate (bytes_text ((0x80 + x)%N :: bs)) = unpaired_surrogate (bytes_text bs).
Proof.
  intros H. rewrite unpaired_cons, surrogate_lead_byte by lia.
  destruct (N.eqb_spec (0x80 + x) 0xED); [lia | done].
Qed.

Lemma unpaired_utf8 cp bs :
  (cp < 0x110000)%N ->
  unpaired_surrogate (bytes_text (utf8 cp ++ bs))
  = surrogate cp || unpaired_surrogate (bytes_text bs).
Proof.
  intros Hcp. unfold utf8, surrogate.
  destruct (N.ltb_spec cp 0x80); [|destruct (N.ltb_spec cp 0x800);
    [|destruct (N.ltb_spec cp 0x10000)]]; cbn [app]; rewrite unpaired_cons.
  - rewrite surrogate_lead_byte by lia.
    destruct (N.eqb_spec cp 0xED); [lia|].
    destruct (N.leb_spec 0xD800 cp); [lia | done].
  - rewrite surrogate_lead_byte by div_lia.
    destruct (N.eqb_spec (0xC0 + cp / 0x40) 0xED); [div_lia|].
    rewrite unpaired_continuation by div_lia.
    destruct (N.leb_spec 0xD800 cp); [lia | done].
  - rewrite surrogate_lead_byte, surrogate_second_byte by div_lia.
    rewrite !unpaired_continuation by div_lia.
    f_equal. apply eq_true_iff_eq.
    rewrite !andb_true_iff, N.eqb_eq, !N.leb_le. div_lia.
  - rewrite surrogate_lead_byte by div_lia.
    destruct (N.eqb_spec (0xF0 + cp / 0x40000) 0xED); [div_lia|].
    rewrite !unpaired_continuation by div_lia.
    destruct (N.leb_spec cp 0xDFFF); [lia|]. by rewrite andb_false_r.
Qed.

Lemma wtf8_bytes_cons c d r :
  wtf8_bytes (c :: d :: r) =
    if high_surrogate c && low_surrogate d
    then utf8 (pair_code_point c d) ++ wtf8_bytes r
    else utf8 c ++ wtf8_bytes (d :: r).
Proof. reflexivity. Qed.

Lemma ill_formed_cons c d r :
  ill_formed (c :: d :: r) =
    if high_surrogate c && low_surrogate d
    then ill_formed r
    else high_surrogate c || low_surrogate c || ill_formed (d :: r).
Proof. reflexivity. Qed.

Lemma surrogate_high_or_low c : surrogate c = high_surrogate c || low_surrogate c.
Proof.
  unfold surrogate, high_surrogate, low_surrogate. apply eq_true_iff_eq.
  rewrite orb_true_iff, !andb_true_iff, !N.leb_le. lia.
Qed.

Lemma wtf8_bytes_ill_formed n s :
  length s <= n -> Forall (fun c => (c < 0x10000)%N) s ->
  unpaired_surrogate (bytes_text (wtf8_bytes s)) = ill_formed s.
Proof.
  revert s. induction n as [|n IH]; intros s Hn Hs.
  { destruct s; [done | simpl in Hn; lia]. }
  destruct s as [|c [|d r]]; [done| |].
  - cbn [wtf8_bytes ill_formed]. rewrite <- (app_nil_r (utf8 c)).
    apply Forall_cons in Hs as [Hc _].
    rewrite unpaired_utf8 by lia. cbn. rewrite orb_false_r.
    apply surrogate_high_or_low.
  - apply Forall_cons in Hs as [Hc Hs]. pose proof Hs as [Hd Hr]%Forall_cons.
    rewrite wtf8_bytes_cons, ill_formed_cons. simpl in Hn.
    destruct (high_surrogate c && low_surrogate d) eqn:E.
    + apply andb_true_iff in E as [E1 E2]. unfold high_surrogate, low_surrogate in *.
      apply andb_true_iff in E1 as [?%N.leb_le ?%N.leb_le],
        E2 as [?%N.leb_le ?%N.leb_le].
      rewrite unpaired_utf8 by (unfold pair_code_point; lia).
      rewrite IH by (done || lia).
      unfold surrogate, pair_code_point.
      destruct (N.leb_spec (0x10000 + (c - 0xD800) * 0x400 + (d - 0xDC00)) 0xDFFF);
        [lia|]. by rewrite andb_false_r.
    + rewrite unpaired_utf8 by lia.
      rewrite IH by (done || simpl; lia).
      by rewrite surrogate_high_or_low.
Qed.

Lemma encodeURIComponent_throws_iff (s : list N) :
  Forall (fun c => (c < 0x10000)%N) s ->
  encodeURIComponent (wtf8 s) = None <-> ill_formed s = true.
Proof.
  intros Hs. unfold encodeURIComponent, wtf8.
  rewrite (wtf8_bytes_ill_formed (length s) s) by done.
  by destruct (ill_formed s).
Qed.

Lemma downloadUrl_well_formed env format r :
  well_formed format r ->
  downloadUrl env format r
  = Some (API_URL env +:+ "/api/download?" +:+ download_query format r).
Proof.
  intros (H1 & H2 & H3 & H4 & H5). unfold downloadUrl.
  by rewrite !encodeURIComponent_well_formed.
Qed.

Lemma downloadUrl_Some env format r href :
  downloadUrl env format r = Some href ->
  well_formed format r /\
  href = API_URL env +:+ "/api/download?" +:+ download_query format r.
Proof.
  unfold downloadUrl, well_formed. intros H.
  destruct (encodeURIComponent (original_url r)) as [e1|] eqn:E1; [|done].
  destruct (encodeURIComponent (format_id format)) as [e2|] eqn:E2; [|done].
  destruct (encodeURIComponent (title r)) as [e3|] eqn:E3; [|done].
  destruct (encodeURIComponent (ext format)) as [e4|] eqn:E4; [|done].
  destruct (encodeURIComponent (quality format)) as [e5|] eqn:E5; [|done].
  apply encodeURIComponent_Some in E1 as [? ->], E2 as [? ->], E3 as [? ->],
    E4 as [? ->], E5 as [? ->].
  simpl in H. injection H as <-. done.
Qed.

Lemma _handleDownload_run env format st :
  _handleDownload env format st =
    match results st with
    | None => (inr tt, st)
    | Some r =>
        match downloadUrl env format r with
        | Some href =>
            (inr tt,
             emit (Navigate href)
               (emit (ConsoleLog ("Triggering download for: " +:+ format_id format)) st))
        | None =>
            (inl URI_ERROR,
             emit (ConsoleLog ("Triggering download for: " +:+ format_id format)) st)
        end
    end.
Proof.
  unfold _handleDownload. destruct (results st) as [r|]; [|done].
  unfold and_then, update, evaluate. by destruct (downloadUrl env format r).
Qed.

Lemma parse_download_query format r :
  parse_query (download_query format r)
  = [ ("url", escape (original_url r));
      ("format_id", escape (format_id format));
      ("title", escape (title r));
      ("ext", escape (ext format));
      ("quality", escape (quality format)) ].
Proof.
  unfold parse_query, download_query.
  change (split_on "&" ?q) with
    (split_on "&"
       ("url=" +:+ escape (original_url r) +:+ String "&"
        ("format_id=" +:+ escape (format_id format) +:+ String "&"
         ("title=" +:+ escape (title r) +:+ String "&"
          ("ext=" +:+ escape (ext format) +:+ String "&"
           ("quality=" +:+ escape (quality format))))))).
  rewrite !split_on_encoded, split_on_encoded_last by reflexivity.
  reflexivity.
Qed.




(** C1. [handleFormatClick] on a format that is not premium is the
    download action and nothing more: the modal flag and the staged
    format stay as they were, and with an analysis result held the
    download is under way: its message is logged and the browser is sent
    to the download link of that format (unless a field has an unpaired
    surrogate, on which the encoding throws).  On a premium format it
    stages the format and opens the modal, and triggers no download: the
    effect log, like the rest of the state, is unchanged. *)
Theorem select_format (env : option string) (format : FormatInfo) (st : State) :
  (is_premium format = false ->
     handleFormatClick env format st = _handleDownload env format st /\
     isModalOpen (exec (handleFormatClick env format) st) = isModalOpen st /\
     selectedFormat (exec (handleFormatClick env format) st) = selectedFormat st /\
     forall r, results st = Some r ->
       log (exec (handleFormatClick env format) st) =
         log st ++ ConsoleLog ("Triggering download for: " +:+ format_id format)
                :: match downloadUrl env format r with
                   | Some href => [Navigate href]
                   | None => []
                   end /\
       (well_formed format r ->
        log (exec (handleFormatClick env format) st) =
          log st ++ [ ConsoleLog ("Triggering download for: " +:+ format_id format);
                      Navigate (API_URL env +:+ "/api/download?"
                                +:+ download_query format r) ])) /\
  (is_premium format = true ->
     isModalOpen (exec (handleFormatClick env format) st) = true /\
     selectedFormat (exec (handleFormatClick env format) st) = Some format /\
     log (exec (handleFormatClick env format) st) = log st /\
     handleFormatClick env format st =
       (inr tt,
        mkState (url st) (loading st) (error st) (results st) true (Some format) (log st))).
Proof.
  unfold handleFormatClick, exec. split; intros ->.
  - split; [done|]. rewrite _handleDownload_run.
    destruct (results st) as [r|] eqn:Hr.
    + assert (Hlog : forall r', Some r = Some r' ->
                log (snd match downloadUrl env format r with
                         | Some href =>
                             (inr tt,
                              emit (Navigate href)
                                (emit (ConsoleLog ("Triggering download for: "
                                                   +:+ format_id format)) st))
                         | None =>
                             (@inl Thrown unit URI_ERROR,
                              emit (ConsoleLog ("Triggering download for: "
                                                +:+ format_id format)) st)
                         end) =
                log st ++ ConsoleLog ("Triggering download for: " +:+ format_id format)
                       :: match downloadUrl env format r' with
                          | Some href => [Navigate href]
                          | None => []
                          end).
      { intros r' [= <-]. destruct (downloadUrl env format r); simpl;
          [by rewrite <- app_assoc | done]. }
      split; [by destruct (downloadUrl env format r)|].
      split; [by destruct (downloadUrl env format r)|].
      intros r' Hr'. split; [by apply Hlog|].
      intros Hwf. rewrite (Hlog r' Hr'). injection Hr' as <-.
      by rewrite (downloadUrl_well_formed _ _ _ Hwf).
    + repeat split; done.
  - repeat split; done.
Qed.

Lemma select_format_witness :
  isModalOpen (exec (handleFormatClick None App.premium_format)
                 (setResults (Some App.sample_response) init)) = true /\
  log (exec (handleFormatClick None App.free_format)
         (setResults (Some App.sample_response) init)) =
    [ ConsoleLog "Triggering download for: 22";
      Navigate ("http://localhost:8000/api/download?"
                +:+ download_query App.free_format App.sample_response) ].
Proof.
  split.
  - apply (select_format None App.premium_format
             (setResults (Some App.sample_response) init)). reflexivity.
  - destruct (select_format None App.free_format
                (setResults (Some App.sample_response) init)) as [H _].
    destruct (H eq_refl) as (_ & _ & _ & Hlog).
    destruct (Hlog App.sample_response eq_refl) as [_ Hwf].
    apply Hwf. repeat split; reflexivity.
Defined.

(** C7 as stated fails on a network failure that carries a message of
    its own, as those of the browsers do: that message is shown, not the
    fixed connectivity text. *)
Lemma network_failure_shows_own_message :
  displayed_error (handleFetch None (NetworkFailure "Failed to fetch") init)
    = Some "Failed to fetch" /\
  ~ shows_connectivity_text None "Failed to fetch" init.
Proof. split; [reflexivity|]. intros H. discriminate H. Qed.

(** C7, amended.  An analysis request that ends with a non-success
    status and the body of detail bad url leaves exactly that text in the
    error box, as does any other non-empty detail.  A non-success
    response whose body is an object without a detail field shows the
    fixed fallback text.  A network failure shows the message the failure
    carries or, when it carries none, the fixed connectivity text.  In
    all these cases no result is stored and the loading flag is off. *)
Theorem analyze_error_text (env : option string) (st : State) :
  displayed_error (handleFetch env (HttpFailure (ErrorObject (Some "bad url"))) st)
    = Some "bad url" /\
  (forall d, d <> EmptyString ->
     displayed_error (handleFetch env (HttpFailure (ErrorObject (Some d))) st) = Some d) /\
  displayed_error (handleFetch env (HttpFailure (ErrorObject None)) st)
    = Some UNKNOWN_ERROR /\
  (forall message,
     displayed_error (handleFetch env (NetworkFailure message) st)
       = Some (js_or message CONNECT_ERROR) /\
     js_or message CONNECT_ERROR <> EmptyString) /\
  (forall message, message <> EmptyString ->
     displayed_error (handleFetch env (NetworkFailure message) st) = Some message) /\
  displayed_error (handleFetch env (NetworkFailure EmptyString) st) = Some CONNECT_ERROR /\
  (forall o, (forall data, o <> HttpSuccess data) ->
     results (handleFetch env o st) = None /\ loading (handleFetch env o st) = false).
Proof.
  split; [reflexivity|]. split.
  { intros d Hd. unfold displayed_error. simpl. destruct d; [done | reflexivity]. }
  split; [reflexivity|]. split.
  { intros m. split; [|by destruct m].
    unfold displayed_error. simpl. by destruct m. }
  split.
  { intros m Hm. unfold displayed_error. simpl. by destruct m. }
  split; [reflexivity|].
  intros o Ho. destruct o as [m | data | m | [m | d]]; try done.
  by destruct (Ho data).
Qed.

Lemma analyze_error_text_witness :
  displayed_error
    (handleFetch None (HttpFailure (ErrorObject (Some "Unsupported URL"))) init)
  = Some "Unsupported URL".
Proof.
  destruct (analyze_error_text None init) as (_ & Hdetail & _).
  apply Hdetail. discriminate.
Defined.

(** *** More on requests and links *)

Lemma js_or_nonempty a b : b <> EmptyString -> js_or a b <> EmptyString.
Proof. by destruct a. Qed.

(** X15. A request never ends silently.  After a successful response
    the result is held and no error is shown; after any other outcome
    (network failure, unreadable body, error status with or without a
    detail, even an empty one) no result is held and a non-empty error
    text is shown.  The loading flag is off in all cases. *)
Theorem request_outcome (env : option string) (o : Outcome) (st : State) :
  loading (handleFetch env o st) = false /\
  match o with
  | HttpSuccess data =>
      results (handleFetch env o st) = Some data /\
      displayed_error (handleFetch env o st) = None
  | _ =>
      results (handleFetch env o st) = None /\
      exists t, displayed_error (handleFetch env o st) = Some t /\ t <> EmptyString
  end.
Proof.
  split; [by destruct o as [m | data | m | [m | d]]|].
  assert (Hshow : forall t s, t <> EmptyString ->
            error s = Some t -> exists t', displayed_error s = Some t' /\ t' <> EmptyString).
  { intros t s Ht Hs. exists t. unfold displayed_error. rewrite Hs. by destruct t. }
  destruct o as [m | data | m | [m | d]]; simpl; (split; [done|]); try done.
  - eapply Hshow; [|reflexivity]. by apply js_or_nonempty.
  - eapply Hshow; [|reflexivity]. by apply js_or_nonempty.
  - eapply Hshow; [|reflexivity]. by apply js_or_nonempty.
  - eapply Hshow; [|reflexivity]. apply js_or_nonempty. done.
Qed.

Lemma download_query_inj f1 r1 f2 r2 :
  download_query f1 r1 = download_query f2 r2 ->
  original_url r1 = original_url r2 /\ format_id f1 = format_id f2 /\
  title r1 = title r2 /\ ext f1 = ext f2 /\ quality f1 = quality f2.
Proof.
  intros H. apply (f_equal parse_query) in H.
  rewrite !parse_download_query in H.
  injection H as H1 H2 H3 H4 H5.
  apply (f_equal percent_decode) in H1, H2, H3, H4, H5.
  rewrite !percent_decode_encode in H1, H2, H3, H4, H5.
  repeat split; congruence.
Qed.

(** X16. The download link determines what is downloaded: two links
    built for the same backend are equal only if the original URL, the
    format identifier, the title, the extension and the quality are all
    equal. *)
Theorem download_link_injective (env : option string)
    (f1 f2 : FormatInfo) (r1 r2 : AnalyzeResponse) (href : string) :
  downloadUrl env f1 r1 = Some href -> downloadUrl env f2 r2 = Some href ->
  original_url r1 = original_url r2 /\ format_id f1 = format_id f2 /\
  title r1 = title r2 /\ ext f1 = ext f2 /\ quality f1 = quality f2.
Proof.
  intros [_ H1]%downloadUrl_Some [_ H2]%downloadUrl_Some. rewrite H1 in H2.
  apply String.app_inj in H2. apply String.app_inj in H2.
  by apply download_query_inj.
Qed.

Lemma download_link_injective_witness :
  original_url App.sample_response = original_url App.sample_response /\
  format_id App.free_format = format_id App.free_format /\
  title App.sample_response = title App.sample_response /\
  ext App.free_format = ext App.free_format /\
  quality App.free_format = quality App.free_format.
Proof.
  apply (download_link_injective None App.free_format App.free_format
           App.sample_response App.sample_response
           ("http://localhost:8000/api/download?"
            +:+ download_query App.free_format App.sample_response)); reflexivity.
Defined.

(** *** The handlers that download, run as event handlers *)

Lemma exec_download env format st :
  exec (_handleDownload env format) st =
    mkState (url st) (loading st) (error st) (results st) (isModalOpen st)
      (selectedFormat st) (log st ++ download_effects env format st).
Proof.
  unfold exec, download_effects. rewrite _handleDownload_run.
  destruct (results st) as [r|] eqn:Hr.
  - destruct (downloadUrl env format r); unfold emit; simpl;
      by rewrite Hr, <- ?app_assoc.
  - simpl. rewrite app_nil_r, <- Hr. by destruct st.
Qed.

Lemma completes_download env format st :
  completes (_handleDownload env format) st <->
  forall r, results st = Some r -> downloadUrl env format r <> None.
Proof.
  unfold completes. rewrite _handleDownload_run.
  destruct (results st) as [r|]; [|done].
  destruct (downloadUrl env format r) eqn:E; simpl; split; try done.
  - intros _ r' [= <-]. by rewrite E.
  - intros H. by destruct (H r eq_refl).
Qed.

Lemma exec_handleFormatClick env format st :
  exec (handleFormatClick env format) st =
    if is_premium format
    then setIsModalOpen true (setSelectedFormat (Some format) st)
    else exec (_handleDownload env format) st.
Proof. unfold handleFormatClick. by destruct (is_premium format). Qed.

Lemma exec_handleUnlockRequest env st f :
  selectedFormat st = Some f ->
  (completes (_handleDownload env f) st ->
   completes (handleUnlockRequest env) st /\
   exec (handleUnlockRequest env) st =
     setSelectedFormat None (setIsModalOpen false (exec (_handleDownload env f) st))) /\
  (~ completes (_handleDownload env f) st ->
   ~ completes (handleUnlockRequest env) st /\
   exec (handleUnlockRequest env) st = exec (_handleDownload env f) st).
Proof.
  intros Hs. unfold completes, exec, handleUnlockRequest. rewrite Hs.
  unfold and_then, update.
  destruct (_handleDownload env f st) as [[err|[]] st'] eqn:E; simpl; split; done.
Qed.

Lemma exec_handleUnlockRequest_none env st :
  selectedFormat st = None -> exec (handleUnlockRequest env) st = st.
Proof. intros Hs. unfold exec, handleUnlockRequest. by rewrite Hs. Qed.

Lemma completes_handleUnlockRequest env st f :
  selectedFormat st = Some f ->
  completes (handleUnlockRequest env) st <-> completes (_handleDownload env f) st.
Proof.
  intros Hs. unfold completes, handleUnlockRequest. rewrite Hs.
  unfold and_then, update.
  by destruct (_handleDownload env f st) as [[err|[]] st'].
Qed.

(** The unlock handler with a format staged, case by case: without
    results nothing downloads and the modal closes; with results the
    download runs and the modal closes, unless an encoding throws, which
    leaves the modal open and the format staged. *)
Lemma handleUnlockRequest_run env st f :
  selectedFormat st = Some f ->
  exec (handleUnlockRequest env) st =
    match results st with
    | None => mkState (url st) (loading st) (error st) None false None (log st)
    | Some r =>
        match downloadUrl env f r with
        | Some href =>
            mkState (url st) (loading st) (error st) (Some r) false None
              (log st ++ [ ConsoleLog ("Triggering download for: " +:+ format_id f);
                           Navigate href ])
        | None =>
            mkState (url st) (loading st) (error st) (Some r) (isModalOpen st) (Some f)
              (log st ++ [ ConsoleLog ("Triggering download for: " +:+ format_id f) ])
        end
    end.
Proof.
  intros Hs. unfold exec, handleUnlockRequest. rewrite Hs.
  unfold and_then, update. rewrite _handleDownload_run.
  destruct (results st) as [r|] eqn:Hr;
    [|unfold setSelectedFormat, setIsModalOpen; simpl; by rewrite Hr].
  destruct (downloadUrl env f r);
    unfold setSelectedFormat, setIsModalOpen, emit; simpl;
    rewrite Hr, ?Hs, <- ?app_assoc; done.
Qed.

End PageFacts.

Section AppFacts.
Import App.

Example sample_opened :
  Page.isModalOpen (page (run None sample_events init)) = true /\
  Modal.timers (modal (run None sample_events init))
    = {[ 1 := Modal.InitTimer; 2 := Modal.IntervalTimer; 3 := Modal.AdLoadTimer ]}.
Proof. split; reflexivity. Qed.

Example sample_cancelled :
  Modal.timers (modal (run None (sample_events ++ [TimerFires 1; TimerFires 2; ClickCancel]) init))
    = ∅.
Proof. reflexivity. Qed.

Lemma commit_unchanged b m : Modal.deps_isOpen m = b -> Modal.commit b m = m.
Proof. intros H. unfold Modal.commit. by rewrite bool_decide_eq_true_2. Qed.

(** Opening: three timers with fresh ids on an empty table. *)
Lemma commit_open m :
  Modal.deps_isOpen m = false -> Modal.cleanup m = None -> Modal.timers m = ∅ ->
  Modal.commit true m =
    Modal.mkState (Modal.countdown m) (Modal.isAdLoaded m) true
      (Some (Modal.mkCleanup (Modal.next_timer m) (S (Modal.next_timer m))
               (S (S (Modal.next_timer m)))))
      (<[S (S (Modal.next_timer m)) := Modal.AdLoadTimer]>
         (<[S (Modal.next_timer m) := Modal.IntervalTimer]>
            (<[Modal.next_timer m := Modal.InitTimer]> ∅)))
      (S (S (S (Modal.next_timer m)))).
Proof.
  intros Hd Hc Ht. unfold Modal.commit. rewrite Hd, Hc. simpl.
  unfold Modal.setEffect. simpl. by rewrite Ht.
Qed.

(** Closing: the cleanup clears the three timers it has captured, which
    are all the timers there are, and resets the ad-loaded flag. *)
Lemma commit_close m c :
  Modal.deps_isOpen m = true -> Modal.cleanup m = Some c -> owned c m ->
  Modal.commit false m =
    Modal.mkState (Modal.countdown m) false false None ∅ (Modal.next_timer m).
Proof.
  intros Hd Hc Hown. unfold Modal.commit. rewrite Hd, Hc. simpl.
  unfold Modal.setEffect. simpl. f_equal.
  apply map_eq. intros id. rewrite lookup_empty.
  destruct (decide (id = Modal.adLoadTimer c)) as [->|N3]; [by rewrite lookup_delete_eq|].
  rewrite lookup_delete_ne by done.
  destruct (decide (id = Modal.interval c)) as [->|N2]; [by rewrite lookup_delete_eq|].
  rewrite lookup_delete_ne by done.
  destruct (decide (id = Modal.initTimer c)) as [->|N1]; [by rewrite lookup_delete_eq|].
  rewrite lookup_delete_ne by done.
  destruct (Modal.timers m !! id) as [t|] eqn:E; [|done].
  destruct (Hown id t E) as [? | [? | ?]]; done.
Qed.

(** A lookup in a table built by insertions: one case per inserted key. *)
Ltac inserted H tac :=
  repeat (apply lookup_insert_Some in H as [[<- _] | [_ H]]; [tac|]);
  try (by rewrite lookup_empty in H).

Lemma on_page_invariant h a :
  invariant a ->
  (Page.isModalOpen (h (page a)) = true -> Page.selectedFormat (h (page a)) <> None) ->
  invariant (on_page h a).
Proof.
  intros (Hdeps & Hbound & Hstate) Hsel. unfold invariant, on_page. simpl.
  destruct (Page.isModalOpen (page a)) eqn:Eb, (Page.isModalOpen (h (page a))) eqn:Ea.
  - rewrite commit_unchanged by done. destruct Hstate as [_ Hc]. auto.
  - destruct Hstate as (_ & c & Hc & Hown).
    rewrite (commit_close _ c) by done. simpl.
    split; [done|]. split; [|done]. intros id t. by rewrite lookup_empty.
  - destruct Hstate as (Ht & Hc & _).
    rewrite commit_open by done. simpl. split; [done|]. split; [|split; [auto|]].
    + intros id t H. simpl in H. inserted H lia.
    + eexists. split; [reflexivity|]. intros id t H. simpl in *. inserted H auto.
  - rewrite commit_unchanged by done. auto.
Qed.

Lemma fire_invariant id a :
  invariant a -> invariant {| page := page a; modal := Modal.fire id (modal a) |}.
Proof.
  intros (Hdeps & Hbound & Hstate). unfold invariant. simpl.
  destruct (Page.isModalOpen (page a)) eqn:Eb.
  - destruct Hstate as (Hsel & c & Hc & Hown).
    assert (Hsub : forall j t, Modal.timers (Modal.fire id (modal a)) !! j = Some t ->
                     Modal.timers (modal a) !! j = Some t).
    { intros j t. unfold Modal.fire.
      destruct (Modal.timers (modal a) !! id) as [[]|] eqn:E; simpl; try done;
        try (intros H; by apply lookup_delete_Some in H as [_ H]).
      destruct (Modal.countdown (modal a) <=? 1)%Z; simpl; [|done].
      intros H; by apply lookup_delete_Some in H as [_ H]. }
    assert (Hsame : Modal.deps_isOpen (Modal.fire id (modal a)) = Modal.deps_isOpen (modal a)
                    /\ Modal.next_timer (Modal.fire id (modal a)) = Modal.next_timer (modal a)
                    /\ Modal.cleanup (Modal.fire id (modal a)) = Modal.cleanup (modal a)).
    { unfold Modal.fire.
      destruct (Modal.timers (modal a) !! id) as [[]|]; simpl; try done.
      by destruct (Modal.countdown (modal a) <=? 1)%Z. }
    destruct Hsame as (-> & -> & ->).
    split; [done|]. split; [eauto|]. split; [done|].
    exists c. split; [done|]. intros j t H. eauto.
  - destruct Hstate as (Ht & Hc & Hl).
    unfold Modal.fire. rewrite Ht, lookup_empty. rewrite Ht.
    repeat split; done.
Qed.

Lemma handle_preserves_invariant env e a : invariant a -> invariant (handle env e a).
Proof.
  intros Ha. pose proof Ha as (Hdeps & Hbound & Hstate).
  assert (Hkeep : Page.isModalOpen (page a) = true -> Page.selectedFormat (page a) <> None).
  { intros H. rewrite H in Hstate. tauto. }
  destruct e as [u | | o | f | | | id]; simpl.
  - by apply on_page_invariant.
  - destruct (Page.loading (page a)); [done|].
    destruct (Page.url (page a)); [done|]. by apply on_page_invariant.
  - destruct (Page.loading (page a)); [|done]. apply on_page_invariant; [done|].
    unfold Page.handleFetch_settle.
    destruct (Page.handleFetch_try o) as [[]|]; simpl; done.
  - destruct (Page.results (page a)) as [r|] eqn:Er; [|done].
    case_bool_decide; [|done]. apply on_page_invariant; [done|].
    rewrite exec_handleFormatClick.
    destruct (Page.is_premium f); [done|]. by rewrite exec_download.
  - destruct (Modal.render _ _); [|done]. by apply on_page_invariant.
  - destruct (Modal.render _ _) as [v|]; [|done].
    destruct (Modal.unlock_disabled v); [done|]. apply on_page_invariant; [done|].
    destruct (Page.selectedFormat (page a)) as [f|] eqn:E.
    + rewrite (handleUnlockRequest_run env _ f E).
      destruct (Page.results (page a)) as [r|]; [|by intros [=]].
      destruct (Page.downloadUrl env f r); simpl; [by intros [=] | done].
    + rewrite exec_handleUnlockRequest_none by done. intros H. by destruct (Hkeep H).
  - by apply fire_invariant.
Qed.

Lemma run_invariant env es a : invariant a -> invariant (run env es a).
Proof.
  revert a. induction es as [|e es IH]; intros a Ha; [done|].
  apply (IH (handle env e a)). by apply handle_preserves_invariant.
Qed.

Lemma init_invariant : invariant init.
Proof. unfold invariant. simpl. repeat split; done. Qed.

Lemma fire_closed ids env a :
  Modal.timers (modal a) = ∅ -> run env (List.map TimerFires ids) a = a.
Proof.
  intros Ht. induction ids as [|id ids IH]; [done|]. simpl.
  unfold Modal.fire. rewrite Ht, lookup_empty. by destruct a.
Qed.

Lemma handle_cancel_open env a :
  Page.isModalOpen (page a) = true -> handle env ClickCancel a = on_page Page.onClose a.
Proof. intros H. unfold handle, Modal.render. by rewrite H. Qed.

Lemma handle_unlock_open env a :
  Page.isModalOpen (page a) = true -> Modal.isUnlockable (modal a) = true ->
  handle env ClickUnlock a = on_page (Page.exec (Page.handleUnlockRequest env)) a.
Proof. intros H Hu. unfold handle, Modal.render. rewrite H. simpl. by rewrite Hu. Qed.

Lemma handle_unlock_disabled env a :
  Modal.isUnlockable (modal a) = false -> handle env ClickUnlock a = a.
Proof.
  intros Hu. unfold handle, Modal.render.
  destruct (Page.isModalOpen (page a)); [|done]. simpl. by rewrite Hu.
Qed.

(** A handler that closes the open modal has the cleanup run. *)
Lemma on_page_close h a :
  invariant a -> Page.isModalOpen (page a) = true ->
  Page.isModalOpen (h (page a)) = false ->
  modal (on_page h a) =
    Modal.mkState (Modal.countdown (modal a)) false false None ∅
      (Modal.next_timer (modal a)).
Proof.
  intros (Hdeps & Hbound & Hstate) Hopen Hh. rewrite Hopen in Hstate, Hdeps.
  destruct Hstate as (Hsel & c & Hc & Hown).
  unfold on_page. cbn [modal]. rewrite Hh. by apply (commit_close _ c).
Qed.

(** A handler that leaves the modal flag alone leaves the modal alone. *)
Lemma on_page_stay h a :
  invariant a -> Page.isModalOpen (h (page a)) = Page.isModalOpen (page a) ->
  modal (on_page h a) = modal a.
Proof.
  intros (Hdeps & _) Hh. unfold on_page. cbn [modal].
  rewrite Hh. by apply commit_unchanged.
Qed.

(** Whatever event closes the open modal: the results stay, and the
    modal is left with its countdown, no timer and no flag. *)
Lemma close_state env e a :
  invariant a -> Page.isModalOpen (page a) = true ->
  Page.isModalOpen (page (handle env e a)) = false ->
  Page.results (page (handle env e a)) = Page.results (page a) /\
  modal (handle env e a) =
    Modal.mkState (Modal.countdown (modal a)) false false None ∅
      (Modal.next_timer (modal a)).
Proof.
  intros Ha Hopen.
  assert (Hon : forall h,
            (Page.isModalOpen (h (page a)) = false ->
             Page.results (h (page a)) = Page.results (page a)) ->
            Page.isModalOpen (page (on_page h a)) = false ->
            Page.results (page (on_page h a)) = Page.results (page a) /\
            modal (on_page h a) =
              Modal.mkState (Modal.countdown (modal a)) false false None ∅
                (Modal.next_timer (modal a))).
  { intros h Hres Hcl. split; [by apply Hres|]. by apply on_page_close. }
  assert (Hno : forall P : Prop, Page.isModalOpen (page a) = false -> P) by congruence.
  destruct e as [u | | o | f | | | id]; unfold handle.
  - apply Hon. simpl. congruence.
  - destruct (Page.loading (page a)); [apply Hno|].
    destruct (Page.url (page a)); [apply Hno|]. apply Hon. simpl. congruence.
  - destruct (Page.loading (page a)); [|apply Hno]. apply Hon.
    unfold Page.handleFetch_settle.
    destruct (Page.handleFetch_try o) as [[]|]; simpl; congruence.
  - destruct (Page.results (page a)) as [r|] eqn:Er; [|apply Hno].
    case_bool_decide; [|apply Hno]. apply Hon. rewrite exec_handleFormatClick.
    destruct (Page.is_premium f); [by simpl|]. rewrite exec_download. simpl. congruence.
  - destruct (Modal.render _ _); [|apply Hno]. by apply Hon.
  - destruct (Modal.render _ _) as [v|]; [|apply Hno].
    destruct (Modal.unlock_disabled v); [apply Hno|]. apply Hon.
    destruct (Page.selectedFormat (page a)) as [f|] eqn:Es.
    + rewrite (handleUnlockRequest_run env _ f Es).
      destruct (Page.results (page a)) as [r|]; [|by simpl].
      destruct (Page.downloadUrl env f r); simpl; congruence.
    + rewrite exec_handleUnlockRequest_none by done. congruence.
  - cbn [page]. apply Hno.
Qed.

(** The unlock button when the download throws: the modal stays as it
    is. *)
Lemma unlock_throws_state env a :
  invariant a -> Page.isModalOpen (page a) = true ->
  ~ Page.completes (Page.handleUnlockRequest env) (page a) ->
  Page.isModalOpen (page (handle env ClickUnlock a)) = true /\
  Page.selectedFormat (page (handle env ClickUnlock a)) = Page.selectedFormat (page a) /\
  modal (handle env ClickUnlock a) = modal a.
Proof.
  intros Ha Hopen Hnc.
  destruct (Modal.isUnlockable (modal a)) eqn:Hu;
    [|by rewrite handle_unlock_disabled].
  rewrite handle_unlock_open by done.
  assert (Hp : Page.isModalOpen (Page.exec (Page.handleUnlockRequest env) (page a)) = true /\
               Page.selectedFormat (Page.exec (Page.handleUnlockRequest env) (page a))
               = Page.selectedFormat (page a)).
  { destruct (Page.selectedFormat (page a)) as [f|] eqn:Es;
      [|by rewrite exec_handleUnlockRequest_none].
    destruct (exec_handleUnlockRequest env (page a) f Es) as [_ Hthrow].
    rewrite completes_handleUnlockRequest in Hnc by done.
    destruct (Hthrow Hnc) as [_ ->]. rewrite exec_download. simpl. by rewrite Es. }
  destruct Hp as [Hp1 Hp2]. cbn [on_page page]. split; [done|]. split; [done|].
  apply on_page_stay; [done | congruence].
Qed.

Lemma handle_click_premium env a f r :
  Page.results (page a) = Some r -> f ∈ Page.formats r -> Page.is_premium f = true ->
  modal (handle env (ClickFormat f) a) = Modal.commit true (modal a).
Proof.
  intros Hr Hf Hp. unfold handle. rewrite Hr, bool_decide_eq_true_2 by done.
  unfold on_page. rewrite exec_handleFormatClick. by rewrite Hp.
Qed.

(** On the rendered page: a click on a listed free format leaves the
    modal as it is and downloads; a click on a listed premium format has
    the modal rendered and navigates nowhere. *)
Lemma click_format_modal env es f r :
  Page.results (page (run env es init)) = Some r -> f ∈ Page.formats r ->
  (Page.is_premium f = false ->
     modal (handle env (ClickFormat f) (run env es init)) = modal (run env es init) /\
     Page.log (page (handle env (ClickFormat f) (run env es init))) =
       Page.log (page (run env es init))
         ++ Page.download_effects env f (page (run env es init))) /\
  (Page.is_premium f = true ->
     Modal.render (Page.isModalOpen (page (handle env (ClickFormat f) (run env es init))))
       (modal (handle env (ClickFormat f) (run env es init))) <> None /\
     Page.log (page (handle env (ClickFormat f) (run env es init))) =
       Page.log (page (run env es init))).
Proof.
  intros Hr Hf.
  pose proof (run_invariant env es init init_invariant) as (Hdeps & _ & _).
  set (a := run env es init) in *.
  unfold handle. rewrite Hr, bool_decide_eq_true_2 by done.
  unfold on_page. rewrite exec_handleFormatClick. cbn [page modal].
  split; intros ->.
  - rewrite exec_download. simpl. by rewrite commit_unchanged.
  - simpl. split; [discriminate | done].
Qed.

(** C9. While the modal is closed no timer of it is pending and its
    ad-loaded flag is false, in every state the page can reach.  The
    cancel button closes an open modal at any moment, and the unlock
    button does once it is enabled, provided its handler runs to its end
    (a download that throws leaves the handler before the modal is
    closed: the modal then stays open, with its timers as they were).
    Whatever event closes the open modal, the close clears the countdown
    interval, the countdown-initialisation delay and the ad-loaded delay
    and resets the ad-loaded flag; timer events arriving afterwards find
    nothing to run and change neither the countdown nor the flag.  A
    later opening starts with exactly three new timers, and no timer
    that was pending before the close is pending in it. *)
Theorem close_cancels_timers (env : option string) (es : list Event) :
  (Page.isModalOpen (page (run env es init)) = false ->
     Modal.timers (modal (run env es init)) = ∅ /\
     Modal.isAdLoaded (modal (run env es init)) = false) /\
  (Page.isModalOpen (page (run env es init)) = true ->
   forall e,
     (closes e (run env es init) ->
      (e = ClickUnlock ->
       Page.completes (Page.handleUnlockRequest env) (page (run env es init))) ->
      Page.isModalOpen (page (handle env e (run env es init))) = false) /\
     (e = ClickUnlock ->
      ~ Page.completes (Page.handleUnlockRequest env) (page (run env es init)) ->
      Page.isModalOpen (page (handle env e (run env es init))) = true /\
      modal (handle env e (run env es init)) = modal (run env es init)) /\
     (Page.isModalOpen (page (handle env e (run env es init))) = false ->
      Modal.timers (modal (handle env e (run env es init))) = ∅ /\
      Modal.isAdLoaded (modal (handle env e (run env es init))) = false /\
      Modal.countdown (modal (handle env e (run env es init)))
        = Modal.countdown (modal (run env es init)) /\
      forall ids,
        run env (List.map TimerFires ids) (handle env e (run env es init))
          = handle env e (run env es init) /\
        forall f r,
          Page.results (page (run env es init)) = Some r ->
          f ∈ Page.formats r -> Page.is_premium f = true ->
          Modal.timers
            (modal (handle env (ClickFormat f)
                     (run env (List.map TimerFires ids) (handle env e (run env es init)))))
          = <[S (S (Modal.next_timer (modal (run env es init)))) := Modal.AdLoadTimer]>
              (<[S (Modal.next_timer (modal (run env es init))) := Modal.IntervalTimer]>
                 (<[Modal.next_timer (modal (run env es init)) := Modal.InitTimer]> ∅)) /\
          forall id,
            is_Some (Modal.timers (modal (run env es init)) !! id) ->
            Modal.timers
              (modal (handle env (ClickFormat f)
                       (run env (List.map TimerFires ids) (handle env e (run env es init)))))
              !! id = None)).
Proof.
  pose proof (run_invariant env es init init_invariant) as Ha.
  set (a := run env es init) in *.
  split.
  { intros Hclosed. destruct Ha as (_ & _ & Hstate).
    rewrite Hclosed in Hstate. tauto. }
  intros Hopen e. split; [|split].
  { intros [-> | [-> Hu]] Hcomp.
    - by rewrite handle_cancel_open.
    - rewrite handle_unlock_open by done. cbn [on_page page].
      specialize (Hcomp eq_refl).
      destruct Ha as (_ & _ & Hstate). rewrite Hopen in Hstate.
      destruct Hstate as (Hsel & _).
      destruct (Page.selectedFormat (page a)) as [f|] eqn:Es; [|done].
      destruct (exec_handleUnlockRequest env (page a) f Es) as [Hend _].
      rewrite completes_handleUnlockRequest in Hcomp by done.
      destruct (Hend Hcomp) as [_ ->]. done. }
  { intros -> Hnc. destruct (unlock_throws_state env a Ha Hopen Hnc) as (H1 & _ & H2).
    done. }
  intros Hp.
  destruct (close_state env e a Ha Hopen Hp) as (Hr & Hm).
  set (a' := handle env e a) in *.
  rewrite Hm. cbn [Modal.timers Modal.isAdLoaded Modal.countdown].
  split; [done|]. split; [done|]. split; [done|].
  intros ids.
  assert (Hfire : run env (List.map TimerFires ids) a' = a')
    by (apply fire_closed; by rewrite Hm).
  rewrite Hfire. split; [done|].
  intros f r Hres Hf Hprem.
  rewrite (handle_click_premium env a' f r) by congruence.
  rewrite Hm, commit_open by done. cbn [Modal.timers Modal.next_timer].
  split; [done|].
  intros id [t Ht].
  destruct Ha as (_ & Hbound & _). apply Hbound in Ht.
  rewrite !lookup_insert_ne by lia. apply lookup_empty.
Qed.

Lemma close_cancels_timers_witness :
  Modal.timers (modal (handle None ClickCancel (run None sample_events init))) = ∅ /\
  Modal.isAdLoaded (modal (handle None ClickCancel (run None sample_events init))) = false.
Proof.
  destruct (close_cancels_timers None sample_events) as [_ H].
  destruct (H eq_refl ClickCancel) as (_ & _ & Hclose).
  destruct (Hclose eq_refl) as (Ht & Hl & _).
  split; [exact Ht | exact Hl].
Defined.

(** *** Further invariants of the page and its modal *)

Lemma on_page_consistent h a :
  invariant a -> consistent a ->
  (Page.isModalOpen (h (page a)) = false -> Page.selectedFormat (h (page a)) = None) ->
  (forall f, Page.selectedFormat (h (page a)) = Some f -> Page.is_premium f = true) ->
  (Page.loading (h (page a)) = true ->
     Page.error (h (page a)) = None /\ Page.results (h (page a)) = None) ->
  (Page.error (h (page a)) = None \/ Page.results (h (page a)) = None) ->
  consistent (on_page h a).
Proof.
  intros (Hdeps & Hbound & Hstate) (_ & _ & _ & _ & Hcd & Hopen) H1 H2 H3 H4.
  unfold consistent, on_page. cbn [page modal].
  split; [done|]. split; [done|]. split; [done|]. split; [done|].
  destruct (Page.isModalOpen (page a)) eqn:Eb, (Page.isModalOpen (h (page a))) eqn:Ea.
  - rewrite commit_unchanged by done. auto.
  - destruct Hstate as (_ & c & Hc & Hown).
    rewrite (commit_close _ c) by done. simpl. done.
  - destruct Hstate as (Ht & Hc & Hl).
    rewrite commit_open by done. simpl. split; [done|]. intros _.
    exists (Modal.next_timer (modal a)). split; [done|]. rewrite Hl.
    split; [|split].
    + intros t Hlk. rewrite !lookup_insert_ne, lookup_insert_eq in Hlk by lia. congruence.
    + intros t Hlk. rewrite lookup_insert_ne, lookup_insert_eq in Hlk by lia. congruence.
    + by rewrite lookup_insert_eq.
  - rewrite commit_unchanged by done. done.
Qed.

Lemma fire_consistent id a :
  invariant a -> consistent a ->
  consistent {| page := page a; modal := Modal.fire id (modal a) |}.
Proof.
  intros (Hdeps & Hbound & Hstate) (H1 & H2 & H3 & H4 & Hcd & Hopen).
  unfold consistent. cbn [page modal].
  split; [done|]. split; [done|]. split; [done|]. split; [done|].
  destruct (Page.isModalOpen (page a)) eqn:Eb.
  - destruct (Hopen eq_refl) as (n & Hc & Hi & Hv & Ha). clear Hopen.
    unfold Modal.fire.
    destruct (Modal.timers (modal a) !! id) as [t|] eqn:E; [|by eauto 10].
    assert (Hid : t = Modal.InitTimer /\ id <> S n /\ id <> S (S n) \/
                  t = Modal.IntervalTimer /\ id <> n /\ id <> S (S n) \/
                  t = Modal.AdLoadTimer /\ id = S (S n) /\ Modal.isAdLoaded (modal a) = false).
    { destruct Hstate as (_ & c & Hc' & Hown). rewrite Hc in Hc'. injection Hc' as <-.
      destruct (Hown id t E) as [-> | [-> | ->]]; simpl in *.
      - rewrite (Hi t E). left. split; [done|]. lia.
      - rewrite (Hv t E). right. left. split; [done|]. lia.
      - rewrite E in Ha. destruct (Modal.isAdLoaded (modal a)); [done|].
        injection Ha as ->. by right; right. }
    destruct Hid as [(-> & N1 & N2) | [(-> & N1 & N2) | (-> & -> & Hl)]].
    + simpl. split; [lia|]. intros _. exists n. split; [done|].
      split; [|split].
      * intros t. destruct (decide (id = n)) as [->|];
          [by rewrite lookup_delete_eq | rewrite lookup_delete_ne by done; apply Hi].
      * intros t. rewrite lookup_delete_ne by done. apply Hv.
      * by rewrite lookup_delete_ne.
    + destruct (Modal.countdown (modal a) <=? 1)%Z eqn:E1; simpl.
      * split; [lia|]. intros _. exists n. split; [done|]. split; [|split].
        -- intros t. rewrite lookup_delete_ne by done. apply Hi.
        -- intros t. destruct (decide (id = S n)) as [->|];
             [by rewrite lookup_delete_eq | rewrite lookup_delete_ne by done; apply Hv].
        -- by rewrite lookup_delete_ne.
      * apply Z.leb_gt in E1. split; [lia|]. intros _. exists n. done.
    + simpl. split; [lia|]. intros _. exists n. split; [done|]. split; [|split].
      * intros t. rewrite lookup_delete_ne by lia. apply Hi.
      * intros t. rewrite lookup_delete_ne by lia. apply Hv.
      * by rewrite lookup_delete_eq.
  - destruct Hstate as (Ht & _). unfold Modal.fire. rewrite Ht, lookup_empty.
    split; [done|]. done.
Qed.

Lemma handle_consistent env e a :
  invariant a -> consistent a -> consistent (handle env e a).
Proof.
  intros Ha Hc. pose proof Hc as (H1 & H2 & H3 & H4 & Hcd & Hopen).
  pose proof Ha as (_ & _ & Hstate).
  destruct e as [u | | o | f | | | id]; unfold handle.
  - by apply on_page_consistent.
  - destruct (Page.loading (page a)); [done|].
    destruct (Page.url (page a)); [done|].
    apply on_page_consistent; simpl; auto.
  - destruct (Page.loading (page a)) eqn:El; [|done].
    destruct (H3 eq_refl) as [He Hr].
    apply on_page_consistent; try done; unfold Page.handleFetch_settle;
      destruct (Page.handleFetch_try o) as [[]|]; simpl; auto.
  - destruct (Page.results (page a)) as [r|] eqn:Er; [|done].
    case_bool_decide; [|done].
    apply on_page_consistent; try done; rewrite exec_handleFormatClick;
      destruct (Page.is_premium f) eqn:Ep; rewrite ?exec_download; simpl;
      rewrite ?Er; auto; try done.
    intros f' [= <-]. done.
  - destruct (Modal.render _ _); [|done]. by apply on_page_consistent.
  - destruct (Modal.render _ _) as [v|]; [|done].
    destruct (Modal.unlock_disabled v); [done|].
    destruct (Page.selectedFormat (page a)) as [f|] eqn:Es.
    + apply on_page_consistent; try done; rewrite (handleUnlockRequest_run env _ f Es);
        (destruct (Page.results (page a)) as [r|] eqn:Er;
           [destruct (Page.downloadUrl env f r)|]); simpl; auto; try done.
    + apply on_page_consistent; try done;
        rewrite exec_handleUnlockRequest_none by done; auto.
      intros f. by rewrite Es.
  - by apply fire_consistent.
Qed.

Lemma init_consistent : consistent init.
Proof. unfold consistent. simpl. repeat split; try done. by left. Qed.

Lemma run_consistent env es a :
  invariant a -> consistent a -> invariant (run env es a) /\ consistent (run env es a).
Proof.
  revert a. induction es as [|e es IH]; intros a Ha Hc; [done|].
  apply (IH (handle env e a)).
  - by apply handle_preserves_invariant.
  - by apply handle_consistent.
Qed.

Lemma reachable_consistent env es :
  invariant (run env es init) /\ consistent (run env es init).
Proof. apply run_consistent; [apply init_invariant | apply init_consistent]. Qed.

Example sample_unlockable :
  Modal.isUnlockable (modal (run None (sample_events ++ waiting_events) init)) = true.
Proof. reflexivity. Qed.

(** A new analysis submitted while the modal is open clears the results;
    the unlock button then closes the modal without any download. *)
Example confirm_without_results :
  added (run None (sample_events ++ waiting_events ++ [SubmitForm]) init)
        (run None (sample_events ++ waiting_events ++ [SubmitForm; ClickUnlock]) init)
    = [] /\
  Page.isModalOpen
    (page (run None (sample_events ++ waiting_events ++ [SubmitForm; ClickUnlock]) init))
    = false.
Proof. split; reflexivity. Qed.

(** X8. The countdown never leaves the range from 0 to 15, in any state
    the page can reach. *)
Theorem countdown_bounds (env : option string) (es : list Event) :
  (0 <= Modal.countdown (modal (run env es init)) <= 15)%Z.
Proof. destruct (reachable_consistent env es) as (_ & _ & _ & _ & _ & H & _). exact H. Qed.

(** X9. While the modal is open, the ad-loaded flag is true exactly when
    the ad-load delay set at this opening has fired, that is, when its
    timer is no longer pending; in particular the unlock button is never
    enabled while that timer is pending. *)
Theorem ad_loaded_iff_delay_fired (env : option string) (es : list Event) :
  Page.isModalOpen (page (run env es init)) = true ->
  exists n,
    Modal.cleanup (modal (run env es init)) = Some (Modal.mkCleanup n (S n) (S (S n))) /\
    (Modal.isAdLoaded (modal (run env es init)) = true <->
     Modal.timers (modal (run env es init)) !! S (S n) = None) /\
    (Modal.isUnlockable (modal (run env es init)) = true ->
     Modal.timers (modal (run env es init)) !! S (S n) = None).
Proof.
  intros Hopen.
  destruct (reachable_consistent env es) as (_ & _ & _ & _ & _ & _ & H).
  destruct (H Hopen) as (n & Hc & _ & _ & Ha). exists n. split; [done|].
  rewrite Ha. unfold Modal.isUnlockable.
  destruct (Modal.isAdLoaded (modal (run env es init))); split; try done.
  by rewrite andb_false_r.
Qed.

Lemma ad_loaded_iff_delay_fired_witness :
  exists n,
    Modal.cleanup (modal (run None sample_events init))
      = Some (Modal.mkCleanup n (S n) (S (S n))) /\
    (Modal.isAdLoaded (modal (run None sample_events init)) = true <->
     Modal.timers (modal (run None sample_events init)) !! S (S n) = None).
Proof.
  destruct (ad_loaded_iff_delay_fired None sample_events eq_refl) as (n & Hc & Hiff & _).
  exists n. split; [exact Hc | exact Hiff].
Defined.

(** X10. A modal that has just been opened is locked: after a click on
    a listed premium format while the modal is closed, the modal is
    rendered with its unlock button disabled, whatever value the
    countdown has kept from an earlier opening. *)
Theorem opening_is_locked (env : option string) (es : list Event)
    (f : Page.FormatInfo) (r : Page.AnalyzeResponse) :
  Page.isModalOpen (page (run env es init)) = false ->
  Page.results (page (run env es init)) = Some r ->
  f ∈ Page.formats r -> Page.is_premium f = true ->
  exists v,
    Modal.render
      (Page.isModalOpen (page (handle env (ClickFormat f) (run env es init))))
      (modal (handle env (ClickFormat f) (run env es init))) = Some v /\
    Modal.unlock_disabled v = true /\
    Modal.countdown (modal (handle env (ClickFormat f) (run env es init)))
      = Modal.countdown (modal (run env es init)).
Proof.
  intros Hclosed Hr Hf Hp.
  destruct (reachable_consistent env es) as ((Hdeps & _ & Hstate) & _).
  set (a := run env es init) in *. rewrite Hclosed in Hstate, Hdeps.
  destruct Hstate as (Ht & Hc & Hl).
  rewrite (handle_click_premium env a f r) by done.
  rewrite commit_open by done.
  assert (Hopen : Page.isModalOpen (page (handle env (ClickFormat f) a)) = true).
  { unfold handle. rewrite Hr, bool_decide_eq_true_2 by done.
    unfold on_page, Page.handleFormatClick. by rewrite Hp. }
  rewrite Hopen. eexists. split; [reflexivity|]. simpl.
  unfold Modal.isUnlockable. simpl. by rewrite Hl, andb_false_r.
Qed.

Lemma opening_is_locked_witness :
  exists v,
    Modal.render
      (Page.isModalOpen (page (run None sample_events init)))
      (modal (run None sample_events init)) = Some v /\
    Modal.unlock_disabled v = true.
Proof.
  destruct (opening_is_locked None
              [ ChangeUrl "https://example.com/watch?v=abc"; SubmitForm;
                RequestEnds (Page.HttpSuccess sample_response) ]
              premium_format sample_response) as (v & Hv & Hd & _);
    [reflexivity | reflexivity | | reflexivity |].
  - apply list_elem_of_In. simpl. auto.
  - exists v. split; [exact Hv | exact Hd].
Defined.

(** X11. A format is staged exactly while the modal is open, and a
    staged format is always a premium one, in every state the page can
    reach. *)
Theorem staged_iff_open (env : option string) (es : list Event) :
  (Page.isModalOpen (page (run env es init)) = true <->
   Page.selectedFormat (page (run env es init)) <> None) /\
  (forall f, Page.selectedFormat (page (run env es init)) = Some f ->
     Page.is_premium f = true).
Proof.
  destruct (reachable_consistent env es) as ((_ & _ & Hstate) & H1 & H2 & _).
  split; [|exact H2]. split.
  - intros Hopen. rewrite Hopen in Hstate. tauto.
  - intros Hsel. destruct (Page.isModalOpen (page (run env es init))); [done|].
    by destruct Hsel; apply H1.
Qed.

Lemma staged_iff_open_witness :
  Page.selectedFormat (page (run None sample_events init)) <> None.
Proof. apply (staged_iff_open None sample_events). reflexivity. Defined.

(** X12. While a request is in flight neither an error nor results are
    held, and at no time are an error and results held together. *)
Theorem loading_shows_nothing (env : option string) (es : list Event) :
  (Page.loading (page (run env es init)) = true ->
     Page.error (page (run env es init)) = None /\
     Page.results (page (run env es init)) = None) /\
  (Page.error (page (run env es init)) = None \/
   Page.results (page (run env es init)) = None).
Proof.
  destruct (reachable_consistent env es) as (_ & _ & _ & H3 & H4 & _). by split.
Qed.

Lemma loading_shows_nothing_witness :
  Page.error (page (run None [ChangeUrl "x"; SubmitForm] init)) = None /\
  Page.results (page (run None [ChangeUrl "x"; SubmitForm] init)) = None.
Proof.
  apply (loading_shows_nothing None [ChangeUrl "x"; SubmitForm]). reflexivity.
Defined.

Lemma added_same a a' :
  Page.log (page a') = Page.log (page a) -> added a a' = [].
Proof. intros H. unfold added. rewrite H. apply drop_all. Qed.

Lemma added_app a a' l :
  Page.log (page a') = Page.log (page a) ++ l -> added a a' = l.
Proof. intros H. unfold added. rewrite H. apply drop_app_length. Qed.

Lemma added_download env f a :
  added a (on_page (Page.exec (Page._handleDownload env f)) a)
  = Page.download_effects env f (page a).
Proof. unfold on_page. cbn [page]. apply added_app. by rewrite exec_download. Qed.

Lemma added_unlock env f a :
  Page.selectedFormat (page a) = Some f ->
  added a (on_page (Page.exec (Page.handleUnlockRequest env)) a)
  = Page.download_effects env f (page a).
Proof.
  intros Es. unfold on_page, Page.download_effects. cbn [page].
  rewrite (handleUnlockRequest_run env _ f Es).
  destruct (Page.results (page a)) as [r|]; [|by apply added_same].
  destruct (Page.downloadUrl env f r); by apply added_app.
Qed.

Lemma navigate_download_effects env f st u :
  Page.Navigate u ∈ Page.download_effects env f st ->
  exists r, Page.results st = Some r /\ Page.downloadUrl env f r = Some u.
Proof.
  unfold Page.download_effects.
  destruct (Page.results st) as [r|]; [|by intros ?%elem_of_nil].
  destruct (Page.downloadUrl env f r) as [href|] eqn:E;
    intros H; apply list_elem_of_In in H; simpl in H.
  - destruct H as [H | [H | []]]; [done|]. injection H as <-. by exists r.
  - by destruct H.
Qed.

(** X13. Downloads are gated.  A handler sends the browser somewhere in
    two cases only: a click on a listed format that is not premium, and
    a click on the unlock button of the open modal when the countdown is
    0 and the ad-loaded flag is true, for the staged premium format.  In
    both cases the destination is the download link of that format for
    the results held. *)
Theorem navigation_is_gated (env : option string) (es : list Event)
    (e : Event) (u : string) :
  Page.Navigate u ∈ added (run env es init) (handle env e (run env es init)) ->
  (exists f r,
     e = ClickFormat f /\ Page.is_premium f = false /\
     Page.results (page (run env es init)) = Some r /\ f ∈ Page.formats r /\
     Page.downloadUrl env f r = Some u) \/
  (exists f r,
     e = ClickUnlock /\ Page.is_premium f = true /\
     Page.selectedFormat (page (run env es init)) = Some f /\
     Page.results (page (run env es init)) = Some r /\
     Page.isModalOpen (page (run env es init)) = true /\
     Modal.countdown (modal (run env es init)) = 0%Z /\
     Modal.isAdLoaded (modal (run env es init)) = true /\
     Page.downloadUrl env f r = Some u).
Proof.
  destruct (reachable_consistent env es) as (_ & _ & Hprem & _).
  set (a := run env es init) in *.
  assert (Hnil : forall a', Page.log (page a') = Page.log (page a) ->
            Page.Navigate u ∈ added a a' -> False).
  { intros a' H. rewrite (added_same _ _ H). by intros ?%elem_of_nil. }
  destruct e as [x | | o | f | | | id]; unfold handle.
  - intros H. by destruct (Hnil _ eq_refl H).
  - destruct (Page.loading (page a)); [intros H; by destruct (Hnil _ eq_refl H)|].
    destruct (Page.url (page a)); [intros H; by destruct (Hnil _ eq_refl H)|].
    erewrite added_app by reflexivity.
    intros H. apply list_elem_of_In in H. simpl in H. by destruct H.
  - destruct (Page.loading (page a)); [|intros H; by destruct (Hnil _ eq_refl H)].
    intros H. exfalso. revert H. apply Hnil.
    unfold on_page, Page.handleFetch_settle. cbn [page].
    by destruct (Page.handleFetch_try o) as [[]|].
  - destruct (Page.results (page a)) as [r|] eqn:Er;
      [|intros H; by destruct (Hnil _ eq_refl H)].
    case_bool_decide as Hf; [|intros H; by destruct (Hnil _ eq_refl H)].
    destruct (Page.is_premium f) eqn:Ep.
    + intros H. exfalso. revert H. apply Hnil.
      unfold on_page. rewrite exec_handleFormatClick. by rewrite Ep.
    + assert (Heq : on_page (Page.exec (Page.handleFormatClick env f)) a
                    = on_page (Page.exec (Page._handleDownload env f)) a)
        by (unfold on_page; rewrite exec_handleFormatClick; by rewrite Ep).
      rewrite Heq, added_download.
      intros (r' & Hr' & Hu)%navigate_download_effects.
      left. exists f, r. rewrite Er in Hr'. injection Hr' as <-. done.
  - destruct (Modal.render _ _); intros H; by destruct (Hnil _ eq_refl H).
  - unfold Modal.render.
    destruct (Page.isModalOpen (page a)) eqn:Eo; simpl;
      [|intros H; by destruct (Hnil _ eq_refl H)].
    destruct (Modal.isUnlockable (modal a)) eqn:Eu; simpl;
      [|intros H; by destruct (Hnil _ eq_refl H)].
    apply isUnlockable_iff in Eu as [Hcd Hl].
    destruct (Page.selectedFormat (page a)) as [f|] eqn:Es.
    + rewrite (added_unlock env f a Es).
      intros (r & Hr & Hu)%navigate_download_effects.
      right. exists f, r. repeat split; auto.
    + intros H. exfalso. revert H. apply Hnil.
      unfold on_page. cbn [page]. by rewrite exec_handleUnlockRequest_none.
  - intros H. by destruct (Hnil _ eq_refl H).
Qed.

Lemma navigation_is_gated_witness :
  exists f r,
    Page.is_premium f = true /\
    Page.selectedFormat (page (run None (sample_events ++ waiting_events) init)) = Some f /\
    Modal.countdown (modal (run None (sample_events ++ waiting_events) init)) = 0%Z /\
    Modal.isAdLoaded (modal (run None (sample_events ++ waiting_events) init)) = true /\
    Page.downloadUrl None f r =
      Some ("http://localhost:8000/api/download?"
            +:+ Page.download_query premium_format sample_response).
Proof.
  destruct (navigation_is_gated None (sample_events ++ waiting_events) ClickUnlock
              ("http://localhost:8000/api/download?"
               +:+ Page.download_query premium_format sample_response))
    as [(f & r & He & _) | (f & r & _ & Hp & Hs & _ & _ & Hc & Hl & Hu)].
  - apply list_elem_of_In. vm_compute. auto.
  - discriminate He.
  - exists f, r. repeat split; assumption.
Defined.

(** The unlock button of the modal opened on a result whose title ends
    in a high surrogate that has lost its partner: the message is
    logged, the encoding of the title throws, the browser is sent
    nowhere, and the modal stays open with the format staged. *)
Example confirm_throws :
  Modal.isUnlockable (modal (run None (truncated_events ++ waiting_events) init)) = true /\
  added (run None (truncated_events ++ waiting_events) init)
        (run None (truncated_events ++ waiting_events ++ [ClickUnlock]) init)
    = [ Page.ConsoleLog "Triggering download for: 400+140" ] /\
  Page.isModalOpen
    (page (run None (truncated_events ++ waiting_events ++ [ClickUnlock]) init)) = true /\
  Page.selectedFormat
    (page (run None (truncated_events ++ waiting_events ++ [ClickUnlock]) init))
    = Some premium_format.
Proof. repeat split; reflexivity. Qed.

(** X14. The unlock button of an unlockable modal acts on the staged
    format, which is a premium one.  Without results held any more it
    downloads nothing and the modal closes.  With results held it logs
    the download of the staged format and encodes the five fields: if
    the encoding succeeds, the browser is sent to the download link of
    the staged format for those results, the modal closes and the staged
    format is dropped; if it throws (a field has an unpaired surrogate),
    the handler ends there: the browser is sent nowhere, the modal stays
    open with its timers as they were, and the format stays staged. *)
Theorem confirm_downloads_staged (env : option string) (es : list Event) :
  Page.isModalOpen (page (run env es init)) = true ->
  Modal.isUnlockable (modal (run env es init)) = true ->
  exists f,
    Page.selectedFormat (page (run env es init)) = Some f /\
    Page.is_premium f = true /\
    added (run env es init) (handle env ClickUnlock (run env es init)) =
      match Page.results (page (run env es init)) with
      | Some r =>
          Page.ConsoleLog ("Triggering download for: " +:+ Page.format_id f)
          :: match Page.downloadUrl env f r with
             | Some href => [Page.Navigate href]
             | None => []
             end
      | None => []
      end /\
    ((forall r, Page.results (page (run env es init)) = Some r ->
        Page.downloadUrl env f r <> None) ->
     Page.isModalOpen (page (handle env ClickUnlock (run env es init))) = false /\
     Page.selectedFormat (page (handle env ClickUnlock (run env es init))) = None) /\
    (forall r, Page.results (page (run env es init)) = Some r ->
       (Page.well_formed f r ->
        Page.downloadUrl env f r
        = Some (Page.API_URL env +:+ "/api/download?" +:+ Page.download_query f r)) /\
       (Page.downloadUrl env f r = None ->
        Page.isModalOpen (page (handle env ClickUnlock (run env es init))) = true /\
        Page.selectedFormat (page (handle env ClickUnlock (run env es init))) = Some f /\
        modal (handle env ClickUnlock (run env es init)) = modal (run env es init))).
Proof.
  intros Hopen Hu.
  destruct (reachable_consistent env es) as (Ha & _ & Hprem & _).
  pose proof Ha as (_ & _ & Hstate).
  set (a := run env es init) in *. rewrite Hopen in Hstate.
  destruct Hstate as (Hsel & _).
  destruct (Page.selectedFormat (page a)) as [f|] eqn:Es; [|done].
  exists f. split; [done|]. split; [by apply Hprem|].
  split; [|split].
  - rewrite handle_unlock_open by done. by rewrite (added_unlock env f a Es).
  - intros Hok. rewrite handle_unlock_open by done. cbn [on_page page].
    destruct (exec_handleUnlockRequest env (page a) f Es) as [Hend _].
    destruct Hend as [_ ->]; [by apply completes_download | done].
  - intros r Hr. split; [apply downloadUrl_well_formed|].
    intros Hnone.
    assert (Hnc : ~ Page.completes (Page.handleUnlockRequest env) (page a)).
    { rewrite completes_handleUnlockRequest, completes_download by done.
      intros H. by destruct (H r Hr). }
    destruct (unlock_throws_state env a Ha Hopen Hnc) as (H1 & H2 & H3).
    rewrite H2. done.
Qed.

Lemma confirm_downloads_staged_witness :
  exists f,
    Page.selectedFormat (page (run None (sample_events ++ waiting_events) init)) = Some f /\
    Page.is_premium f = true /\
    added (run None (sample_events ++ waiting_events) init)
          (handle None ClickUnlock (run None (sample_events ++ waiting_events) init))
      = [ Page.ConsoleLog ("Triggering download for: " +:+ Page.format_id f);
          Page.Navigate ("http://localhost:8000/api/download?"
                         +:+ Page.download_query f sample_response) ].
Proof.
  destruct (confirm_downloads_staged None (sample_events ++ waiting_events) eq_refl eq_refl)
    as (f & Hs & Hp & Hadd & _).
  exists f. split; [exact Hs|]. split; [exact Hp|].
  injection Hs as <-. rewrite Hadd. reflexivity.
Defined.

End AppFacts.

Section AdDisplayFacts.
Import AdDisplay.

Example one_push_per_slot :
  pushed (renders [("a", false); ("a", false); ("b", false); ("b", false)] (init (Some []))) = 2.
Proof. reflexivity. Qed.

Lemma commit_same slot throws w :
  deps_slot w = Some slot -> commit slot throws w = w.
Proof. intros H. unfold commit. by rewrite bool_decide_eq_true_2. Qed.

Lemma commit_deps slot throws w : deps_slot (commit slot throws w) = Some slot.
Proof.
  unfold commit. case_bool_decide; [done|]. unfold effect. simpl.
  by destruct (adsbygoogle w), throws.
Qed.

Lemma renders_same slot rs w :
  deps_slot w = Some slot -> Forall (fun r => fst r = slot) rs -> renders rs w = w.
Proof.
  intros Hd Hall. revert w Hd. induction Hall as [|[s t] rs Hs _ IH]; intros w Hd; [done|].
  simpl in Hs. subst s. simpl. rewrite commit_same by done. by apply IH.
Qed.

Lemma renders_absent rs w :
  adsbygoogle w = None ->
  adsbygoogle (renders rs w) = None /\ log (renders rs w) = log w.
Proof.
  revert w. induction rs as [|[s t] rs IH]; intros w Hq; [done|]. simpl.
  assert (H : adsbygoogle (commit s t w) = None /\ log (commit s t w) = log w).
  { unfold commit. case_bool_decide; [done|]. unfold effect. simpl. by rewrite Hq. }
  destruct H as [H1 H2]. destruct (IH _ H1) as [-> ->]. done.
Qed.

(** X18. The ad unit asks for one impression per slot value.  Mounting
    with a slot and then rendering any number of times with that same
    slot runs the push once: on a defined queue, one command is appended
    if the push succeeds; if it throws, the error is logged, nothing is
    appended and the push is not tried again.  With the queue undefined
    no render, whatever its slot, pushes or logs anything. *)
Theorem one_impression_per_slot (slot : string) (throws : bool)
    (rs : list (string * bool)) :
  (Forall (fun r => fst r = slot) rs ->
   forall q,
     renders ((slot, throws) :: rs) (init (Some q)) =
       if throws
       then mkState (Some slot) (Some q) [ConsoleError "Error pushing AdSense ad:"]
       else mkState (Some slot) (Some (q ++ [EmptyCommand])) []) /\
  (adsbygoogle (renders rs (init None)) = None /\ log (renders rs (init None)) = []).
Proof.
  split.
  - intros Hall q. change (renders ((slot, throws) :: rs) (init (Some q)))
      with (renders rs (commit slot throws (init (Some q)))).
    rewrite (renders_same slot) by (done || apply commit_deps).
    by destruct throws.
  - by apply renders_absent.
Qed.

Lemma one_impression_per_slot_witness :
  renders [("3664465767", false); ("3664465767", false); ("3664465767", true)]
    (init (Some []))
  = mkState (Some "3664465767") (Some [EmptyCommand]) [].
Proof.
  apply (proj1 (one_impression_per_slot "3664465767" false
                  [("3664465767", false); ("3664465767", true)])).
  repeat constructor.
Defined.

End AdDisplayFacts.
